(** * Smart queue store: auto-queue and radio mode

    A shallow embedding of the smart queue store of the UI package
    (the zustand store [useSmartQueueStore] and its helper functions) and the
    properties of it that the specification states.

    Conventions of the embedding.
    - A JavaScript [number] that the code only ever uses as a count, an index
      or a millisecond timestamp is a [Z]; one that takes fractional values
      (scores, weights, audio features) is an exact rational [Q], so [0.2] is
      the rational 1/5.  The one division of the code whose divisor can be
      zero goes through [Js.quot], which has JavaScript's [Infinity] and
      [NaN] results.  The zero of the rationals is the positive zero of the
      doubles; they have no negative zero.
    - An optional field [f?: T] is an [option T]; [undefined] is [None].
    - An object used as a dictionary ([Record<string, V>], [Map<string, V>])
      is a [gmap string V] holding its own entries.  A [Map] has nothing
      else.  A plain object ([KEY_POSITIONS], [queueSources]) also has the
      members it inherits from [Object.prototype]: [Obj.read] is a read
      [obj[name]] with those, [Obj.assign] an assignment [obj[name] = v].
      [calculateKeyCompatibility] and [calculateSeedRelevance] look a key up
      among the entries of the table; [Proto.calculateKeyCompatibility] and
      [Proto.calculateSeedRelevance] are the same functions with the
      inherited members, and agree with them on every other key.
    - Array elements that are objects carry their identity ([oid]), which is
      what [Array.prototype.includes] compares.
    - The zustand store is a record [SmartQueueState]; an action is a function
      from the state (and from what it reads of the clock and of the other
      stores) to the next state. *)

From Stdlib Require Import ZArith QArith Qround Qminmax Qabs Lqa Lia Bool Ascii String
  DecimalString List.
From stdpp Require Import base option list gmap strings sorting.

Import ListNotations.
Local Open Scope string_scope.
Local Open Scope list_scope.
Local Open Scope Z_scope.

(** ** JavaScript primitives used by the store *)

Module Js.

(** [String.prototype.toLowerCase], on the ASCII letters; every other
    character is left as it is. *)
Definition lower_ascii (c : ascii) : ascii :=
  let n := nat_of_ascii c in
  if ((65 <=? n) && (n <=? 90))%nat then ascii_of_nat (n + 32) else c.

Fixpoint toLowerCase (s : string) : string :=
  match s with
  | EmptyString => EmptyString
  | String c s' => String (lower_ascii c) (toLowerCase s')
  end.

(** [s.includes(sub)]: [sub] occurs in [s] as a contiguous substring. *)
Fixpoint includes (s sub : string) : bool :=
  String.prefix sub s ||
  match s with
  | EmptyString => false
  | String _ s' => includes s' sub
  end.

(** Truthiness of a string: only the empty string is falsy. *)
Definition truthy (s : string) : bool :=
  match s with EmptyString => false | _ => true end.

(** [x || d] on an optional string: [d] replaces [undefined] and [""]. *)
Definition or_else (x : option string) (d : string) : string :=
  match x with
  | Some s => if truthy s then s else d
  | None => d
  end.

(** [arr.slice(-n)] for a positive literal [n]: the last [n] elements, the
    whole array when it is shorter. *)
Definition slice_last {A} (n : nat) (l : list A) : list A :=
  drop (length l - n) l.

(** [arr.slice(0, n)] for a number [n]: a negative [n] counts from the end. *)
Definition slice_to {A} (n : Z) (l : list A) : list A :=
  if n <? 0 then take (length l - Z.to_nat (- n)) l else take (Z.to_nat n) l.

(** The result of a division of two finite numbers. *)
Inductive number : Type :=
| Finite (q : Q)
| PosInfinity
| NegInfinity
| NaN.

(** [a / b] for finite [a] and [b]; a divisor that is zero is the positive
    zero. *)
Definition quot (a b : Q) : number :=
  if Qeq_bool b 0 then
    match (a ?= 0)%Q with
    | Eq => NaN
    | Gt => PosInfinity
    | Lt => NegInfinity
    end
  else Finite (a / b).

(** [Math.min(x, c)] for a finite [c]. *)
Definition min_with (x : number) (c : Q) : number :=
  match x with
  | Finite q => Finite (Qmin q c)
  | PosInfinity => Finite c
  | NegInfinity => NegInfinity
  | NaN => NaN
  end.

(** [x <= c] for a finite [c]; every comparison with [NaN] is false. *)
Definition leb (x : number) (c : Q) : bool :=
  match x with
  | Finite q => Qle_bool q c
  | PosInfinity => false
  | NegInfinity => true
  | NaN => false
  end.

(** [x < c] for a finite [c]. *)
Definition ltb (x : number) (c : Q) : bool :=
  match x with
  | Finite q => negb (Qle_bool c q)
  | PosInfinity => false
  | NegInfinity => true
  | NaN => false
  end.

(** [x > c] for a finite [c]. *)
Definition gtb (x : number) (c : Q) : bool :=
  match x with
  | Finite q => negb (Qle_bool q c)
  | PosInfinity => true
  | NegInfinity => false
  | NaN => false
  end.

(** [Math.round]: the nearest integer, halves rounded up. *)
Definition round (q : Q) : Z := Qfloor (q + (1 # 2))%Q.

End Js.

(** ** Plain objects used as dictionaries *)

Module Obj.

(** The names of the members that a plain object inherits from
    [Object.prototype]. *)
Definition prototypeNames : list string :=
  [ "constructor"; "hasOwnProperty"; "isPrototypeOf"; "propertyIsEnumerable";
    "toLocaleString"; "toString"; "valueOf"; "__proto__";
    "__defineGetter__"; "__defineSetter__"; "__lookupGetter__";
    "__lookupSetter__" ].

Definition inherited (name : string) : bool :=
  existsb (String.eqb name) prototypeNames.

(** What a read [obj[name]] gives: the value of an own entry; or, for a name
    that is no own entry, the inherited member (a function, and for
    [__proto__] the prototype object), if there is one; or [undefined]. *)
Inductive value (V : Type) : Type :=
| Own (v : V)
| Member
| Undefined.

Arguments Own {V} v.
Arguments Member {V}.
Arguments Undefined {V}.

(** [obj[name]] *)
Definition read {V} (obj : gmap string V) (name : string) : value V :=
  match obj !! name with
  | Some v => Own v
  | None => if inherited name then Member else Undefined
  end.

(** [obj[name] = v] on an object made by a literal.  The name [__proto__]
    is an accessor of [Object.prototype]: assigning to it replaces the
    prototype of [obj] and adds no entry. *)
Definition assign {V} (obj : gmap string V) (name : string) (v : V)
    : gmap string V :=
  if String.eqb name "__proto__" then obj else <[name := v]> obj.

End Obj.

(** ** Circle of Fifths key compatibility *)

Definition KEY_POSITIONS : gmap string Z :=
  list_to_map
    [ ("C", 0); ("G", 1); ("D", 2); ("A", 3); ("E", 4); ("B", 5);
      ("F#", 6); ("Gb", 6); ("C#", 7); ("Db", 7); ("Ab", 8); ("G#", 8);
      ("Eb", 9); ("D#", 9); ("Bb", 10); ("A#", 10); ("F", 11);
      ("Am", 0); ("Em", 1); ("Bm", 2); ("F#m", 3); ("C#m", 4); ("G#m", 5);
      ("D#m", 6); ("Ebm", 6); ("A#m", 7); ("Bbm", 7); ("Fm", 8);
      ("Cm", 9); ("Gm", 10); ("Dm", 11) ].

(** The distance on the circle as the code computes it. *)
Definition keyDistance (pos1 pos2 : Z) : Z :=
  Z.min (Z.abs (pos1 - pos2)) (12 - Z.abs (pos1 - pos2)).

Definition calculateKeyCompatibility (key1 key2 : option string) : Q :=
  match key1, key2 with
  | Some k1, Some k2 =>
      if negb (Js.truthy k1) || negb (Js.truthy k2) then 0.5%Q
      else
        match KEY_POSITIONS !! k1, KEY_POSITIONS !! k2 with
        | Some pos1, Some pos2 =>
            Qmax 0 (1 - inject_Z (keyDistance pos1 pos2) * 0.2)
        | _, _ => 0.5%Q
        end
  | _, _ => 0.5%Q
  end.

(** The distance as the specification words it: the smaller of the number of
    clockwise and of counterclockwise steps between two of the 12 positions. *)
Definition clockwise_steps (pos1 pos2 : Z) : Z := (pos2 - pos1) mod 12.
Definition counterclockwise_steps (pos1 pos2 : Z) : Z := (pos1 - pos2) mod 12.
Definition circle_distance (pos1 pos2 : Z) : Z :=
  Z.min (clockwise_steps pos1 pos2) (counterclockwise_steps pos1 pos2).

(** ** Types *)

Inductive QueueMode : Type := manual | auto_queue | radio.

Inductive RadioSeedType : Type := seed_track | seed_artist | seed_genre.

(** [Partial<AudioFeatures>]: every field may be missing. *)
Record AudioFeatures : Type := mkAudioFeatures {
  af_bpm : option Q;
  af_energy : option Q;
  af_key : option string;
  af_valence : option Q;
  af_danceability : option Q
}.

(** The empty object [{}] that stands in for missing track features. *)
Definition noFeatures : AudioFeatures :=
  mkAudioFeatures None None None None None.

Record Artist : Type := mkArtist {
  artist_id : string;
  artist_name : string
}.

Record Album : Type := mkAlbum {
  album_id : string;
  album_title : string
}.

(** The fields of [UnifiedTrack] that the store reads.  [oid] is the identity
    of the object: two entries of an array are the same object exactly when
    their [oid]s agree. *)
Record UnifiedTrack : Type := mkTrack {
  oid : nat;
  track_id : string;
  track_title : string;
  track_artists : list Artist;
  track_album : option Album;
  track_genres : option (list string);
  track_audioFeatures : option AudioFeatures
}.

Record RadioSeed : Type := mkSeed {
  seed_type : RadioSeedType;
  seed_id : string;
  seed_name : string;
  seed_genres : option (list string);
  seed_artistIds : option (list string);
  seed_audioFeatures : option AudioFeatures
}.

Record SmartQueueConfig : Type := mkConfig {
  autoQueueEnabled : bool;
  autoQueueThreshold : Z;
  autoQueueBatchSize : Z;
  limitArtistRepetition : bool;
  maxArtistPerBatch : Z;
  useMLRecommendations : bool
}.

Record RadioConfig : Type := mkRadioConfig {
  seedWeight : Q;
  diversityFactor : Q;
  progressiveDrift : bool
}.

Record SessionHistory : Type := mkSession {
  playedTrackIds : list string;
  playedArtistIds : list string;
  sessionStartTime : Z
}.

Definition DEFAULT_CONFIG : SmartQueueConfig :=
  {| autoQueueEnabled := false;
     autoQueueThreshold := 2;
     autoQueueBatchSize := 10;
     limitArtistRepetition := true;
     maxArtistPerBatch := 2;
     useMLRecommendations := true |}.

Definition DEFAULT_RADIO_CONFIG : RadioConfig :=
  {| seedWeight := 0.7; diversityFactor := 0.3; progressiveDrift := true |}.

Definition MIN_FETCH_INTERVAL_MS : Z := 5000.
Definition MAX_SESSION_HISTORY : nat := 200.
Definition SESSION_TIMEOUT_MS : Z := 4 * 60 * 60 * 1000.

(** ** Seed relevance for radio mode *)

(** [xs?.some(p)]: a missing array gives [undefined], which is falsy. *)
Definition some_opt {A} (p : A -> bool) (xs : option (list A)) : bool :=
  match xs with
  | Some l => existsb p l
  | None => false
  end.

(** [seed.genres?.some(g => track.genres?.some(tg => tg includes g))] *)
Definition seedGenreMatch (track : UnifiedTrack) (seed : RadioSeed) : bool :=
  some_opt (fun g =>
    some_opt (fun tg => Js.includes (Js.toLowerCase tg) (Js.toLowerCase g))
             (track_genres track))
    (seed_genres seed).

(** The [switch (seed.type)] block: the points for artist and genre matches. *)
Definition metadataRelevance (track : UnifiedTrack) (seed : RadioSeed) : Z :=
  match seed_type seed with
  | seed_track =>
      (if some_opt (fun id =>
            existsb (fun a =>
              String.eqb (artist_id a) id ||
              String.eqb (Js.toLowerCase (artist_name a)) (Js.toLowerCase id))
              (track_artists track))
          (seed_artistIds seed)
       then 30 else 0)
      + (if seedGenreMatch track seed then 20 else 0)
  | seed_artist =>
      (if existsb (fun a =>
            String.eqb (artist_id a) (seed_id seed) ||
            String.eqb (Js.toLowerCase (artist_name a))
                       (Js.toLowerCase (seed_name seed)))
          (track_artists track)
       then 50 else 0)
      + (if seedGenreMatch track seed then 20 else 0)
  | seed_genre =>
      if some_opt (fun g =>
           Js.includes (Js.toLowerCase g) (Js.toLowerCase (seed_id seed)) ||
           Js.includes (Js.toLowerCase (seed_id seed)) (Js.toLowerCase g))
         (track_genres track)
      then 60 else 0
  end.

(** [bpmRatio = Math.min(bpmDiff / seedFeatures.bpm, 1)] *)
Definition bpmRatio (seedBpm trackBpm : Q) : Js.number :=
  Js.min_with (Js.quot (Qabs (seedBpm - trackBpm)) seedBpm) 1.

(** BPM compatibility, when both sides have a [bpm]. *)
Definition bpmBonus (seedFeatures trackFeatures : AudioFeatures) : Z :=
  match af_bpm seedFeatures, af_bpm trackFeatures with
  | Some s, Some t =>
      if Js.leb (bpmRatio s t) 0.1 then 12
      else if Js.leb (bpmRatio s t) 0.2 then 8
      else if Js.leb (bpmRatio s t) 0.3 then 4
      else 0
  | _, _ => 0
  end.

(** Energy compatibility. *)
Definition energyBonus (seedFeatures trackFeatures : AudioFeatures) : Z :=
  match af_energy seedFeatures, af_energy trackFeatures with
  | Some s, Some t =>
      let energyDiff := Qabs (s - t) in
      if Qle_bool energyDiff 0.15 then 12
      else if Qle_bool energyDiff 0.25 then 8
      else if Qle_bool energyDiff 0.35 then 4
      else 0
  | _, _ => 0
  end.

(** Key compatibility on the Circle of Fifths. *)
Definition keyBonus (seedFeatures trackFeatures : AudioFeatures) : Z :=
  match af_key seedFeatures, af_key trackFeatures with
  | Some k1, Some k2 =>
      Js.round (calculateKeyCompatibility (Some k1) (Some k2) * 10)
  | _, _ => 0
  end.

(** Valence (mood) compatibility. *)
Definition valenceBonus (seedFeatures trackFeatures : AudioFeatures) : Z :=
  match af_valence seedFeatures, af_valence trackFeatures with
  | Some s, Some t =>
      let valenceDiff := Qabs (s - t) in
      if Qle_bool valenceDiff 0.2 then 6
      else if Qle_bool valenceDiff 0.35 then 3
      else 0
  | _, _ => 0
  end.

(** The [if (seed.audioFeatures)] block: [audioBonus] after its four steps. *)
Definition audioBonus (track : UnifiedTrack) (seed : RadioSeed) : Z :=
  match seed_audioFeatures seed with
  | Some seedFeatures =>
      let trackFeatures := default noFeatures (track_audioFeatures track) in
      bpmBonus seedFeatures trackFeatures
      + energyBonus seedFeatures trackFeatures
      + keyBonus seedFeatures trackFeatures
      + valenceBonus seedFeatures trackFeatures
  | None => 0
  end.

Definition calculateSeedRelevance (track : UnifiedTrack) (seed : RadioSeed) : Z :=
  let relevance := metadataRelevance track seed in
  let relevance := relevance + audioBonus track seed in
  Z.min 100 relevance.

(** *** Keys that name an inherited member *)

(** [KEY_POSITIONS[key]] is a property read on a plain object.  For a key
    such as ['constructor'] it gives an inherited function, which is not
    [undefined]; in arithmetic a function is [NaN], and [Math.abs],
    [Math.min], [Math.max], [Math.round] and [+] all give [NaN] from [NaN].
    The functions below are [calculateKeyCompatibility] and
    [calculateSeedRelevance] with this case; in their results [None] is
    [NaN]. *)
Module Proto.

Definition calculateKeyCompatibility (key1 key2 : option string) : option Q :=
  match key1, key2 with
  | Some k1, Some k2 =>
      if negb (Js.truthy k1) || negb (Js.truthy k2) then Some 0.5%Q
      else
        match Obj.read KEY_POSITIONS k1, Obj.read KEY_POSITIONS k2 with
        | Obj.Undefined, _ | _, Obj.Undefined => Some 0.5%Q
        | Obj.Own pos1, Obj.Own pos2 =>
            Some (Qmax 0 (1 - inject_Z (keyDistance pos1 pos2) * 0.2))
        | _, _ => None
        end
  | _, _ => Some 0.5%Q
  end.

(** What the key step adds to [audioBonus]. *)
Definition keyBonus (seedFeatures trackFeatures : AudioFeatures) : option Z :=
  match af_key seedFeatures, af_key trackFeatures with
  | Some k1, Some k2 =>
      (fun keyCompat => Js.round (keyCompat * 10)) <$>
        calculateKeyCompatibility (Some k1) (Some k2)
  | _, _ => Some 0
  end.

Definition audioBonus (track : UnifiedTrack) (seed : RadioSeed) : option Z :=
  match seed_audioFeatures seed with
  | Some seedFeatures =>
      let trackFeatures := default noFeatures (track_audioFeatures track) in
      (fun key =>
         bpmBonus seedFeatures trackFeatures
         + energyBonus seedFeatures trackFeatures
         + key
         + valenceBonus seedFeatures trackFeatures) <$>
        keyBonus seedFeatures trackFeatures
  | None => Some 0
  end.

Definition calculateSeedRelevance (track : UnifiedTrack) (seed : RadioSeed)
    : option Z :=
  (fun bonus => Z.min 100 (metadataRelevance track seed + bonus)) <$>
    audioBonus track seed.

End Proto.

(** Neither the key of the seed nor the key of the track, if they have one,
    names an inherited member. *)
Definition ownKeyNames (track : UnifiedTrack) (seed : RadioSeed) : bool :=
  let plain (features : option AudioFeatures) :=
    match features ≫= af_key with
    | Some key => negb (Obj.inherited key)
    | None => true
    end in
  plain (seed_audioFeatures seed) && plain (track_audioFeatures track).

(** ** Diversity filter *)

(** [track.artists[0]?.name?.toLowerCase() || 'unknown'] *)
Definition mainArtist (track : UnifiedTrack) : string :=
  Js.or_else (Js.toLowerCase <$> (artist_name <$> head (track_artists track)))
             "unknown".

(** [result.includes(t)]: some element of [result] is the object [t]. *)
Definition includesTrack (result : list UnifiedTrack) (t : UnifiedTrack) : bool :=
  existsb (fun r => Nat.eqb (oid r) (oid t)) result.

(** The [for (const track of tracks)] loop, from the state [(result,
    artistCounts)] it has reached over the tracks still to visit. *)
Fixpoint diversityLoop (limit maxPerArtist : Z) (tracks : list UnifiedTrack)
    (result : list UnifiedTrack) (artistCounts : gmap string Z)
    : list UnifiedTrack * gmap string Z :=
  match tracks with
  | [] => (result, artistCounts)
  | track :: rest =>
      if Z.of_nat (length result) >=? limit then (result, artistCounts)
      else
        let artistCount := default 0 (artistCounts !! mainArtist track) in
        if artistCount <? maxPerArtist then
          diversityLoop limit maxPerArtist rest (result ++ [track])
            (<[mainArtist track := artistCount + 1]> artistCounts)
        else diversityLoop limit maxPerArtist rest result artistCounts
  end.

(** [result] when the loop ends: the tracks selected under the artist cap. *)
Definition cappedSelection (tracks : list UnifiedTrack) (limit maxPerArtist : Z)
    : list UnifiedTrack :=
  (diversityLoop limit maxPerArtist tracks [] ∅).1.

(** What the [if (result.length < limit)] step pushes onto [result]. *)
Definition backFill (tracks result : list UnifiedTrack) (limit : Z)
    : list UnifiedTrack :=
  if Z.of_nat (length result) <? limit then
    let remaining := List.filter (fun t => negb (includesTrack result t)) tracks in
    Js.slice_to (limit - Z.of_nat (length result)) remaining
  else [].

Definition applyDiversityFilter (tracks : list UnifiedTrack)
    (limit maxPerArtist : Z) : list UnifiedTrack :=
  match tracks with
  | [] => []
  | _ =>
      let result := cappedSelection tracks limit maxPerArtist in
      result ++ backFill tracks result limit
  end.

(** How many tracks of [l] have main artist [a]. *)
Definition artistOccurrences (a : string) (l : list UnifiedTrack) : Z :=
  Z.of_nat (length (List.filter (fun t => String.eqb (mainArtist t) a) l)).

(** The distinct main artists of a list of tracks. *)
Definition distinctArtists (l : list UnifiedTrack) : list string :=
  remove_dups (mainArtist <$> l).

(** The loop invariant: the map [artistCounts] holds, for every artist, the
    number of tracks of [result] by that artist. *)
Definition countsAgree (artistCounts : gmap string Z) (result : list UnifiedTrack)
    : Prop :=
  forall a, default 0 (artistCounts !! a) = artistOccurrences a result.

(** Every main artist of [l] has at least [k] tracks in [l]. *)
Definition enoughPerArtist (k : Z) (l : list UnifiedTrack) : bool :=
  forallb (fun t => k <=? artistOccurrences (mainArtist t) l) l.

(** ** The store *)

Inductive QueueSourceType : Type :=
| src_manual | src_artist | src_album | src_genre | src_similar | src_radio
| src_mood | src_discovery | src_trending | src_search | src_liked
| src_playlist | src_ml | src_auto.

Record QueueSource : Type := mkSource {
  source_type : QueueSourceType;
  source_label : string;
  source_context : option string;
  source_score : option Q;
  source_timestamp : Z;
  source_seedTrackId : option string
}.

Record SmartQueueState : Type := mkState {
  mode : QueueMode;
  radioSeed : option RadioSeed;
  radioTracksPlayed : Z;
  sessionHistory : SessionHistory;
  isAutoQueueFetching : bool;
  lastAutoQueueFetch : Z;
  autoQueueError : option string;
  consecutiveFailures : Z;
  config : SmartQueueConfig;
  radioConfig : RadioConfig;
  pendingCandidates : list UnifiedTrack;
  queueSources : gmap string QueueSource
}.

(** The store as [create] builds it at time [now]. *)
Definition initialState (now : Z) : SmartQueueState :=
  {| mode := manual;
     radioSeed := None;
     radioTracksPlayed := 0;
     sessionHistory := mkSession [] [] now;
     isAutoQueueFetching := false;
     lastAutoQueueFetch := 0;
     autoQueueError := None;
     consecutiveFailures := 0;
     config := DEFAULT_CONFIG;
     radioConfig := DEFAULT_RADIO_CONFIG;
     pendingCandidates := [];
     queueSources := ∅ |}.

(** What the store reads of the player store. *)
Record PlayerStore : Type := mkPlayer {
  queue : list UnifiedTrack;
  queueIndex : Z;
  currentTrack : option UnifiedTrack
}.

Definition QueueMode_eqb (a b : QueueMode) : bool :=
  match a, b with
  | manual, manual | auto_queue, auto_queue | radio, radio => true
  | _, _ => false
  end.

Definition setMode (m : QueueMode) (st : SmartQueueState) : SmartQueueState :=
  mkState m (radioSeed st) (radioTracksPlayed st) (sessionHistory st)
    (isAutoQueueFetching st) (lastAutoQueueFetch st) (autoQueueError st)
    (consecutiveFailures st) (config st) (radioConfig st)
    (pendingCandidates st) (queueSources st).

(** *** Session history *)

(** [a.id || a.name] *)
Definition artistKey (a : Artist) : string :=
  if Js.truthy (artist_id a) then artist_id a else artist_name a.

Definition recordTrackPlayed (track : UnifiedTrack) (st : SmartQueueState)
    : SmartQueueState :=
  let newPlayedTrackIds :=
    playedTrackIds (sessionHistory st) ++ [track_id track] in
  let newPlayedArtistIds :=
    playedArtistIds (sessionHistory st) ++ map artistKey (track_artists track) in
  let playedTrackIds' := Js.slice_last MAX_SESSION_HISTORY newPlayedTrackIds in
  let playedArtistIds' :=
    Js.slice_last (MAX_SESSION_HISTORY * 2) newPlayedArtistIds in
  mkState (mode st) (radioSeed st)
    (if QueueMode_eqb (mode st) radio then radioTracksPlayed st + 1
     else radioTracksPlayed st)
    (mkSession playedTrackIds' playedArtistIds'
       (sessionStartTime (sessionHistory st)))
    (isAutoQueueFetching st) (lastAutoQueueFetch st) (autoQueueError st)
    (consecutiveFailures st) (config st) (radioConfig st)
    (pendingCandidates st) (queueSources st).

(** [now] is what [Date.now()] returns when the action runs. *)
Definition clearSession (now : Z) (st : SmartQueueState) : SmartQueueState :=
  mkState (mode st) (radioSeed st) 0 (mkSession [] [] now)
    (isAutoQueueFetching st) (lastAutoQueueFetch st) (autoQueueError st)
    (consecutiveFailures st) (config st) (radioConfig st)
    (pendingCandidates st) (queueSources st).

Definition resetSession (now : Z) (st : SmartQueueState) : SmartQueueState :=
  let timeSinceStart := now - sessionStartTime (sessionHistory st) in
  if timeSinceStart >? SESSION_TIMEOUT_MS then clearSession now st else st.

(** *** Scoring steps of [fetchMoreTracks] *)

Inductive ExplorationMode : Type := exploit | explore | balanced.

(** [a < b] on rationals. *)
Definition Qltb (a b : Q) : bool := negb (Qle_bool b a).

(** [discoveryCount / Math.max(1, localCount + discoveryCount)] *)
Definition discoveryRatio (localCount discoveryCount : Z) : Q :=
  inject_Z discoveryCount / inject_Z (Z.max 1 (localCount + discoveryCount)).

(** The exploration mode from the three lists of gathered candidates. *)
Definition explorationMode
    (localTracks discoveryTracks similarTracks : list UnifiedTrack)
    : ExplorationMode :=
  let localCount := Z.of_nat (length localTracks) in
  let discoveryCount :=
    Z.of_nat (length discoveryTracks) + Z.of_nat (length similarTracks) in
  let ratio := discoveryRatio localCount discoveryCount in
  if Qltb 0.6 ratio then exploit
  else if Qltb ratio 0.3 then explore
  else balanced.

(** The seed weight after progressive drift. *)
Definition effectiveSeedWeight (radioConfig : RadioConfig)
    (radioTracksPlayed : Z) : Q :=
  if progressiveDrift radioConfig then
    Qmax 0.3 (seedWeight radioConfig - inject_Z radioTracksPlayed * 0.02)
  else seedWeight radioConfig.

Section BaseScores.

(** The two scorers of the ML store and of the recommendation store, and
    whether the ML model is loaded. *)
Variable getHybridScore : UnifiedTrack -> Q.
Variable calculateTrackScore : UnifiedTrack -> Q.
Variable isModelLoaded : bool.

Definition rawScore (st : SmartQueueState) (track : UnifiedTrack) : Q :=
  let useML := useMLRecommendations (config st) && isModelLoaded in
  if useML then getHybridScore track else calculateTrackScore track.

(** The body of the [for (const track of candidates)] loop. *)
Definition baseScore (st : SmartQueueState) (track : UnifiedTrack) : Q :=
  match QueueMode_eqb (mode st) radio, radioSeed st with
  | true, Some seed =>
      let seedRelevance := calculateSeedRelevance track seed in
      let w := effectiveSeedWeight (radioConfig st) (radioTracksPlayed st) in
      rawScore st track * (1 - w) + inject_Z seedRelevance * w
  | _, _ => rawScore st track
  end.

(** The map [baseScores] after the loop over [candidates]. *)
Definition baseScores (st : SmartQueueState) (candidates : list UnifiedTrack)
    : gmap string Q :=
  fold_left (fun scores track => <[track_id track := baseScore st track]> scores)
            candidates ∅.

End BaseScores.

(** *** Replenishing the queue *)

(** How the awaited [fetchMoreTracks] ends: it returns tracks, or it throws
    ([Some m] for an [Error] with message [m], [None] for any other value). *)
Inductive FetchOutcome : Type :=
| Resolved (newTracks : list UnifiedTrack)
| Rejected (error : option string).

(** The stores after [checkAndReplenish], and whether it called
    [fetchMoreTracks]. *)
Record Replenished : Type := mkReplenished {
  nextState : SmartQueueState;
  nextPlayer : PlayerStore;
  fetchStarted : bool
}.

Section Replenish.

(** [isLiked] of the library store and [addToQueue] of the player store. *)
Variable isLiked : string -> bool.
Variable addToQueue : PlayerStore -> UnifiedTrack -> PlayerStore.

Definition sameArtist (a b : Artist) : bool :=
  String.eqb (Js.toLowerCase (artist_name b)) (Js.toLowerCase (artist_name a))
  || String.eqb (artist_id b) (artist_id a).

(** The part of [determineTrackSource] that compares with the current
    track: artist, then album, then genre. *)
Definition sourceFromCurrent (track currentTrack : UnifiedTrack) (now : Z)
    : option QueueSource :=
  match List.find (fun a => existsb (sameArtist a) (track_artists currentTrack))
                  (track_artists track) with
  | Some matchingArtist =>
      Some (mkSource src_artist
              (String.append "More from " (artist_name matchingArtist))
              (Some (artist_name matchingArtist)) None now
              (Some (track_id currentTrack)))
  | None =>
      let sameAlbum :=
        match track_album currentTrack with
        | Some ca =>
            Js.truthy (album_id ca) &&
            match track_album track with
            | Some ta => String.eqb (album_id ta) (album_id ca)
            | None => false
            end
        | None => false
        end in
      match sameAlbum, track_album currentTrack with
      | true, Some ca =>
          Some (mkSource src_album (String.append "From " (album_title ca))
                  (Some (album_title ca)) None now
                  (Some (track_id currentTrack)))
      | _, _ =>
          let trackGenres :=
            map Js.toLowerCase (default [] (track_genres track)) in
          let currentGenres :=
            map Js.toLowerCase (default [] (track_genres currentTrack)) in
          match trackGenres, currentGenres with
          | _ :: _, _ :: _ =>
              match List.find
                      (fun g => existsb (String.eqb (Js.toLowerCase g)) trackGenres)
                      (default [] (track_genres currentTrack)) with
              | Some sharedGenre =>
                  if Js.truthy sharedGenre then
                    Some (mkSource src_genre (String.append sharedGenre " vibes")
                            (Some sharedGenre) None now
                            (Some (track_id currentTrack)))
                  else None
              | None => None
              end
          | _, _ => None
          end
      end
  end.

Definition determineTrackSource (st : SmartQueueState) (track : UnifiedTrack)
    (currentTrack : option UnifiedTrack) (now : Z) : QueueSource :=
  match QueueMode_eqb (mode st) radio, radioSeed st with
  | true, Some seed =>
      let name := seed_name seed in
      let fromSeedArtist :=
        existsb (fun a =>
            String.eqb (artist_id a) (seed_id seed) ||
            String.eqb (Js.toLowerCase (artist_name a)) (Js.toLowerCase name))
          (track_artists track) in
      match seed_type seed with
      | seed_artist =>
          if fromSeedArtist then
            mkSource src_artist (String.append "More from " name) (Some name)
              None now (Some (seed_id seed))
          else
            mkSource src_radio (String.append name " Radio") (Some name)
              None now None
      | seed_genre =>
          mkSource src_genre (String.append name " radio") (Some name)
            None now None
      | seed_track =>
          mkSource src_similar (String.append "Similar to " name) (Some name)
            None now (Some (seed_id seed))
      end
  | _, _ =>
      if isLiked (track_id track) then
        mkSource src_liked "From your Likes" None None now None
      else
        let fallback :=
          mkSource src_ml "Recommended for you" None None now
            (track_id <$> currentTrack) in
        match currentTrack with
        | Some current => default fallback (sourceFromCurrent track current now)
        | None => fallback
        end
  end.

(** The state that both failure branches [set]. *)
Definition fetchFailed (st : SmartQueueState) (later : Z) (message : string)
    : SmartQueueState :=
  mkState (mode st) (radioSeed st) (radioTracksPlayed st) (sessionHistory st)
    false later (Some message) (consecutiveFailures st + 1)
    (config st) (radioConfig st) (pendingCandidates st) (queueSources st).

(** The state that the success branch [set]s. *)
Definition fetchSucceeded (st : SmartQueueState) (later : Z)
    (newSources : gmap string QueueSource) : SmartQueueState :=
  mkState (mode st) (radioSeed st) (radioTracksPlayed st) (sessionHistory st)
    false later None 0
    (config st) (radioConfig st) (pendingCandidates st)
    (newSources ∪ queueSources st).

(** [checkAndReplenish]: [now] is the clock when it checks the rate limit,
    [outcome] how the awaited [fetchMoreTracks] ends and [later] the clock
    after that. *)
Definition checkAndReplenish (st : SmartQueueState) (player : PlayerStore)
    (now : Z) (outcome : FetchOutcome) (later : Z) : Replenished :=
  let unchanged := mkReplenished st player false in
  if QueueMode_eqb (mode st) manual then unchanged
  else if negb (autoQueueEnabled (config st))
          && negb (QueueMode_eqb (mode st) radio) then unchanged
  else if isAutoQueueFetching st then unchanged
  else if now - lastAutoQueueFetch st <? MIN_FETCH_INTERVAL_MS then unchanged
  else
    let remainingTracks :=
      Z.of_nat (length (queue player)) - queueIndex player - 1 in
    if remainingTracks <=? autoQueueThreshold (config st) then
      match outcome with
      | Resolved newTracks =>
          if (0 <? length newTracks)%nat then
            let newSources :=
              fold_left (fun sources track =>
                  Obj.assign sources (track_id track)
                    (determineTrackSource st track (currentTrack player) later))
                newTracks ∅ in
            mkReplenished (fetchSucceeded st later newSources)
              (fold_left addToQueue newTracks player) true
          else
            mkReplenished (fetchFailed st later "No matching tracks found")
              player true
      | Rejected error =>
          mkReplenished
            (fetchFailed st later (default "Failed to fetch tracks" error))
            player true
      end
    else unchanged.

End Replenish.

(** *** The end of [fetchMoreTracks] *)

Section Selection.

(** Scoring the candidates and sorting them by descending score. *)
Variable rankByScore : SmartQueueState -> list UnifiedTrack -> list UnifiedTrack.

(** [fetchMoreTracks] from the deduplicated [candidates] on. *)
Definition selectTracks (st : SmartQueueState) (candidates : list UnifiedTrack)
    : list UnifiedTrack :=
  match candidates with
  | [] => []
  | _ =>
      let selected := rankByScore st candidates in
      if limitArtistRepetition (config st) then
        applyDiversityFilter selected (autoQueueBatchSize (config st))
          (maxArtistPerBatch (config st))
      else Js.slice_to (autoQueueBatchSize (config st)) selected
  end.

End Selection.

(** ** The store against the clock *)

(** What happens to the store over time: time passes, a track is played,
    [resetSession] or [clearSession] is called. *)
Inductive SessionEvent : Type :=
| Wait (ms : Z)
| Play (track : UnifiedTrack)
| ResetCall
| ClearCall.

(** The clock, the store, and the time of the last activity of the session
    (its start, a played track or an explicit clear).  The store itself keeps
    no such time; the specification speaks of it. *)
Record Timeline : Type := mkTimeline {
  clock : Z;
  store : SmartQueueState;
  lastActivity : Z
}.

Definition startTimeline (now : Z) : Timeline :=
  mkTimeline now (initialState now) now.

Definition sessionStep (w : Timeline) (e : SessionEvent) : Timeline :=
  match e with
  | Wait ms => mkTimeline (clock w + ms) (store w) (lastActivity w)
  | Play track => mkTimeline (clock w) (recordTrackPlayed track (store w)) (clock w)
  | ResetCall => mkTimeline (clock w) (resetSession (clock w) (store w)) (lastActivity w)
  | ClearCall => mkTimeline (clock w) (clearSession (clock w) (store w)) (clock w)
  end.

Definition runSession (w : Timeline) (events : list SessionEvent) : Timeline :=
  fold_left sessionStep events w.

(** The specification's condition for a reset: 4 hours without activity. *)
Definition idleForFourHours (w : Timeline) : bool :=
  SESSION_TIMEOUT_MS <=? clock w - lastActivity w.

(** ** The exploration mode as the specification words it *)

(** The ratio of the number of discovery candidates to the number of local
    candidates. *)
Definition discoveryToLocalRatio (localTracks discoveryTracks : list UnifiedTrack)
    : Js.number :=
  Js.quot (inject_Z (Z.of_nat (length discoveryTracks)))
          (inject_Z (Z.of_nat (length localTracks))).

(** Above 0.6 exploit, below 0.3 explore, else balanced. *)
Definition modeFromRatio (ratio : Js.number) : ExplorationMode :=
  if Js.gtb ratio 0.6 then exploit
  else if Js.ltb ratio 0.3 then explore
  else balanced.

(** ** Sample data *)

(** A track that only has an identity, an id and one artist. *)
Definition trackBy (n : nat) (tid artist : string) : UnifiedTrack :=
  mkTrack n tid tid [mkArtist artist artist] None None None.

(** Audio features, a seed and a candidate that only have a [bpm]. *)
Definition bpmOnly (bpm : Q) : AudioFeatures :=
  mkAudioFeatures (Some bpm) None None None None.

Definition seedWithBpm (bpm : Q) : RadioSeed :=
  mkSeed seed_track "seed" "Seed" None None (Some (bpmOnly bpm)).

Definition trackWithBpm (bpm : Q) : UnifiedTrack :=
  mkTrack 0 "candidate" "Candidate" [] None None (Some (bpmOnly bpm)).

(** The store in radio mode on [seed] after [played] radio tracks. *)
Definition radioState (seed : RadioSeed) (played : Z) : SmartQueueState :=
  mkState radio (Some seed) played (mkSession [] [] 0) false 0 None 0
    DEFAULT_CONFIG DEFAULT_RADIO_CONFIG [] ∅.

(** The store in auto-queue mode, last fetch at [lastFetch]. *)
Definition autoQueueState (lastFetch : Z) : SmartQueueState :=
  mkState auto_queue None 0 (mkSession [] [] 0) false lastFetch None 0
    (mkConfig true 2 10 true 2 true) DEFAULT_RADIO_CONFIG [] ∅.

(** A player store with [n] queued tracks, playing the first. *)
Definition playerWith (n : nat) : PlayerStore :=
  mkPlayer (map (fun i => trackBy i "queued" "Queued") (seq 0 n)) 0 None.

(** A player store's [addToQueue] that appends to the queue. *)
Definition appendToQueue (p : PlayerStore) (t : UnifiedTrack) : PlayerStore :=
  mkPlayer (queue p ++ [t]) (queueIndex p) (currentTrack p).

(** * The rest of the store *)

(** ** More JavaScript primitives *)

Module Arr.

(** [arr.slice(start, end)]: a negative index counts from the end, and both
    are clamped to the array. *)
Definition slice {A} (start finish : Z) (l : list A) : list A :=
  let len := Z.of_nat (length l) in
  let k := if start <? 0 then Z.max (len + start) 0 else Z.min start len in
  let final := if finish <? 0 then Z.max (len + finish) 0 else Z.min finish len in
  take (Z.to_nat (final - k)) (drop (Z.to_nat k) l).

(** [arr.includes(s)] on an array of strings. *)
Definition includes (l : list string) (s : string) : bool :=
  existsb (String.eqb s) l.

End Arr.

Module Str.

(** [s.split(' ')]: the pieces between the spaces, empty pieces included. *)
Fixpoint split_space (s : string) : list string :=
  match s with
  | EmptyString => [EmptyString]
  | String c s' =>
      if Ascii.eqb c " "%char then EmptyString :: split_space s'
      else
        match split_space s' with
        | w :: ws => String c w :: ws
        | [] => [String c EmptyString]
        end
  end.

End Str.

(** ** Mode actions *)

Definition withAutoQueueEnabled (enabled : bool) (c : SmartQueueConfig)
    : SmartQueueConfig :=
  mkConfig enabled (autoQueueThreshold c) (autoQueueBatchSize c)
    (limitArtistRepetition c) (maxArtistPerBatch c) (useMLRecommendations c).

Definition enableAutoQueue (st : SmartQueueState) : SmartQueueState :=
  mkState auto_queue (radioSeed st) (radioTracksPlayed st) (sessionHistory st)
    (isAutoQueueFetching st) (lastAutoQueueFetch st) (autoQueueError st)
    (consecutiveFailures st) (withAutoQueueEnabled true (config st))
    (radioConfig st) (pendingCandidates st) (queueSources st).

Definition disableAutoQueue (st : SmartQueueState) : SmartQueueState :=
  mkState manual (radioSeed st) (radioTracksPlayed st) (sessionHistory st)
    (isAutoQueueFetching st) (lastAutoQueueFetch st) (autoQueueError st)
    (consecutiveFailures st) (withAutoQueueEnabled false (config st))
    (radioConfig st) (pendingCandidates st) (queueSources st).

Definition toggleAutoQueue (st : SmartQueueState) : SmartQueueState :=
  if autoQueueEnabled (config st) || QueueMode_eqb (mode st) auto_queue
  then disableAutoQueue st
  else enableAutoQueue st.

Definition stopRadio (st : SmartQueueState) : SmartQueueState :=
  mkState manual None 0 (sessionHistory st)
    (isAutoQueueFetching st) (lastAutoQueueFetch st) (autoQueueError st)
    (consecutiveFailures st) (config st) (radioConfig st) [] (queueSources st).

(** [isEnabled] of [useAutoQueueStatus]. *)
Definition autoQueueIsEnabled (st : SmartQueueState) : bool :=
  autoQueueEnabled (config st) || QueueMode_eqb (mode st) auto_queue.

(** ** Starting a radio *)

(** The seed that [startRadio] stores: a track seed without audio features
    takes those that [getAudioFeatures] returned, if any ([None] when it
    returned nothing or threw). *)
Definition enrichSeed (seed : RadioSeed) (fetched : option AudioFeatures)
    : RadioSeed :=
  match seed_type seed, seed_audioFeatures seed, fetched with
  | seed_track, None, Some audioFeatures =>
      mkSeed (seed_type seed) (seed_id seed) (seed_name seed) (seed_genres seed)
        (seed_artistIds seed) (Some audioFeatures)
  | _, _, _ => seed
  end.

Section StartRadio.

(** [setQueue] and [play] of the player store. *)
Variable setQueue : PlayerStore -> list UnifiedTrack -> Z -> PlayerStore.
Variable play : PlayerStore -> UnifiedTrack -> PlayerStore.

(** [startRadio(seed, availableTracks)]: [fetched] is what
    [getAudioFeatures] gave for the seed, [now] the clock at the [set], and
    [tracks] what the awaited [fetchMoreTracks] returned. *)
Definition startRadio (st : SmartQueueState) (player : PlayerStore)
    (seed : RadioSeed) (fetched : option AudioFeatures) (now : Z)
    (availableTracks tracks : list UnifiedTrack)
    : SmartQueueState * PlayerStore :=
  let enrichedSeed := enrichSeed seed fetched in
  let started :=
    mkState radio (Some enrichedSeed) 0 (mkSession [] [] now)
      (isAutoQueueFetching st) (lastAutoQueueFetch st) None 0
      (config st) (radioConfig st) (pendingCandidates st) (queueSources st) in
  match availableTracks, tracks with
  | _ :: _, first :: _ =>
      (recordTrackPlayed first started, play (setQueue player tracks 0) first)
  | _, _ => (started, player)
  end.

End StartRadio.

(** ** Queue source tracking *)

Definition setQueueSource (trackId : string) (source : QueueSource)
    (st : SmartQueueState) : SmartQueueState :=
  mkState (mode st) (radioSeed st) (radioTracksPlayed st) (sessionHistory st)
    (isAutoQueueFetching st) (lastAutoQueueFetch st) (autoQueueError st)
    (consecutiveFailures st) (config st) (radioConfig st)
    (pendingCandidates st) (<[trackId := source]> (queueSources st)).

Definition getQueueSource (trackId : string) (st : SmartQueueState)
    : Obj.value QueueSource :=
  Obj.read (queueSources st) trackId.

Definition clearQueueSources (st : SmartQueueState) : SmartQueueState :=
  mkState (mode st) (radioSeed st) (radioTracksPlayed st) (sessionHistory st)
    (isAutoQueueFetching st) (lastAutoQueueFetch st) (autoQueueError st)
    (consecutiveFailures st) (config st) (radioConfig st)
    (pendingCandidates st) ∅.

(** The map [newSources] that the success branch of [checkAndReplenish]
    builds. *)
Definition newSourcesOf (isLiked : string -> bool) (st : SmartQueueState)
    (player : PlayerStore) (later : Z) (newTracks : list UnifiedTrack)
    : gmap string QueueSource :=
  fold_left (fun sources track =>
      Obj.assign sources (track_id track)
        (determineTrackSource isLiked st track (currentTrack player) later))
    newTracks ∅.

(** ** Gathering candidates in [fetchMoreTracks] *)

(** The set [excludeIds]: the ids of the queued tracks, of the tracks played
    in the session and of the disliked tracks ([dislikedIds] is
    [Object.keys(recStore.dislikedTracks)]). *)
Definition excludeIds (player : PlayerStore) (st : SmartQueueState)
    (dislikedIds : list string) : gset string :=
  list_to_set (track_id <$> queue player)
  ∪ list_to_set (playedTrackIds (sessionHistory st))
  ∪ list_to_set dislikedIds.

(** The [while (discIdx < ... || localIdx < ...)] loop over what is left of
    the discovery and local tracks: an iteration pushes up to two discovery
    tracks and one local track.  [fuel] bounds the number of iterations. *)
Fixpoint interleaveLoop (fuel : nat) (discoveryTracks localTracks : list UnifiedTrack)
    (interleaved : list UnifiedTrack) : list UnifiedTrack :=
  match fuel with
  | O => interleaved
  | S fuel' =>
      match discoveryTracks, localTracks with
      | [], [] => interleaved
      | _, _ =>
          interleaveLoop fuel' (drop 2 discoveryTracks) (drop 1 localTracks)
            (interleaved ++ take 2 discoveryTracks ++ take 1 localTracks)
      end
  end.

(** [interleaved] after both loops: all similar tracks, then discovery and
    local tracks two to one.  Every iteration consumes a track, so the
    number of tracks is fuel enough. *)
Definition interleaveSources
    (similarTracks discoveryTracks localTracks : list UnifiedTrack)
    : list UnifiedTrack :=
  interleaveLoop (length discoveryTracks + length localTracks)
    discoveryTracks localTracks similarTracks.

Section Deduplicate.

(** [normalizeTitle], a chain of regular-expression replacements, is taken
    as given. *)
Variable normalizeTitle : string -> string.

Definition areTitlesTooSimilar (title1 title2 : string) : bool :=
  let norm1 := normalizeTitle title1 in
  let norm2 := normalizeTitle title2 in
  if String.eqb norm1 norm2 then true
  else
    let shorter :=
      if (String.length norm1 <? String.length norm2)%nat then norm1 else norm2 in
    if (Js.includes norm1 norm2 || Js.includes norm2 norm1)
       && (5 <=? String.length shorter)%nat
    then true
    else
      let words1 :=
        List.filter (fun w => (2 <? String.length w)%nat) (Str.split_space norm1) in
      let words2 :=
        List.filter (fun w => (2 <? String.length w)%nat) (Str.split_space norm2) in
      match words1, words2 with
      | [], _ | _, [] => false
      | _, _ =>
          let commonWords := List.filter (Arr.includes words2) words1 in
          let overlapRatio :=
            (inject_Z (Z.of_nat (length commonWords))
             / inject_Z (Z.of_nat (Nat.min (length words1) (length words2))))%Q in
          Qle_bool 0.8 overlapRatio
      end.

(** [seenTitles] before the filter runs: the normalized title of the current
    track, then those of the queue around the playing index that are not in
    the list yet. *)
Definition initialSeenTitles (player : PlayerStore) : list string :=
  let seenTitles :=
    match currentTrack player with
    | Some current =>
        if Js.truthy (track_title current)
        then [normalizeTitle (track_title current)] else []
    | None => []
    end in
  let recentQueueTitles :=
    List.filter Js.truthy
      (map track_title
         (Arr.slice (Z.max 0 (queueIndex player - 3)) (queueIndex player + 1)
            (queue player))) in
  fold_left
    (fun seenTitles title =>
       let norm := normalizeTitle title in
       if Arr.includes seenTitles norm then seenTitles else seenTitles ++ [norm])
    recentQueueTitles seenTitles.

(** The predicate of [candidates.filter], which reads and extends [seen] and
    [seenTitles]. *)
Fixpoint deduplicateLoop (excluded : gset string) (candidates : list UnifiedTrack)
    (seen : gset string) (seenTitles : list string) : list UnifiedTrack :=
  match candidates with
  | [] => []
  | track :: rest =>
      if negb (Js.truthy (track_id track)) then
        deduplicateLoop excluded rest seen seenTitles
      else if bool_decide (track_id track ∈ seen) then
        deduplicateLoop excluded rest seen seenTitles
      else if bool_decide (track_id track ∈ excluded) then
        deduplicateLoop excluded rest seen seenTitles
      else
        let normTitle := normalizeTitle (track_title track) in
        let isTooSimilar :=
          existsb (fun existingTitle =>
                     areTitlesTooSimilar (track_title track) existingTitle
                     || String.eqb normTitle existingTitle)
                  seenTitles in
        if isTooSimilar then deduplicateLoop excluded rest seen seenTitles
        else
          track :: deduplicateLoop excluded rest ({[track_id track]} ∪ seen)
                     (seenTitles ++ [normTitle])
  end.

(** [candidates] after "Deduplicate and filter". *)
Definition deduplicate (player : PlayerStore) (st : SmartQueueState)
    (dislikedIds : list string) (candidates : list UnifiedTrack)
    : list UnifiedTrack :=
  deduplicateLoop (excludeIds player st dislikedIds) candidates ∅
    (initialSeenTitles player).

End Deduplicate.

(** What [deduplicateLoop] guarantees for a track it keeps, against the ids
    and titles seen when it reaches the track. *)
Definition keptAgainst (normalizeTitle : string -> string)
    (excluded seen : gset string) (seenTitles : list string)
    (t : UnifiedTrack) : Prop :=
  Js.truthy (track_id t) = true /\
  (track_id t ∉ seen) /\
  (track_id t ∉ excluded) /\
  forall existingTitle,
    existingTitle ∈ seenTitles ->
    normalizeTitle (track_title t) <> existingTitle /\
    areTitlesTooSimilar normalizeTitle (track_title t) existingTitle = false.

(** ** Ranking candidates in [fetchMoreTracks] *)

(** [enhanced?.finalScore ?? baseScores.get(track.id) ?? 0] *)
Definition finalScore (enhancedScores baseScores : gmap string Q)
    (track : UnifiedTrack) : Q :=
  match enhancedScores !! track_id track with
  | Some score => score
  | None => default 0%Q (baseScores !! track_id track)
  end.

(** [scored.sort((a, b) => b.score - a.score)]: the sort is stable, so a
    track moves behind exactly the later tracks of higher score. *)
Fixpoint insertByScore (score : UnifiedTrack -> Q) (track : UnifiedTrack)
    (sorted : list UnifiedTrack) : list UnifiedTrack :=
  match sorted with
  | [] => [track]
  | next :: rest =>
      if Qltb (score track) (score next)
      then next :: insertByScore score track rest
      else track :: next :: rest
  end.

Definition sortByScore (score : UnifiedTrack -> Q) (tracks : list UnifiedTrack)
    : list UnifiedTrack :=
  foldr (insertByScore score) [] tracks.

Section FetchMoreTracks.

Variable normalizeTitle : string -> string.
Variable getHybridScore : UnifiedTrack -> Q.
Variable calculateTrackScore : UnifiedTrack -> Q.
Variable isModelLoaded : bool.

(** The final scores that the awaited [batchEnhancedScore] returns for the
    candidates and their base scores. *)
Variable batchEnhancedScore :
  SmartQueueState -> list UnifiedTrack -> gmap string Q -> gmap string Q.

(** Base scores, enhanced scores, and the sort by descending score. *)
Definition rankCandidates (st : SmartQueueState) (candidates : list UnifiedTrack)
    : list UnifiedTrack :=
  let scores :=
    baseScores getHybridScore calculateTrackScore isModelLoaded st candidates in
  let enhancedScores := batchEnhancedScore st candidates scores in
  sortByScore (finalScore enhancedScores scores) candidates.

(** [fetchMoreTracks] from the three gathered lists on: interleave,
    deduplicate, rank, select. *)
Definition fetchMoreTracksFrom (st : SmartQueueState) (player : PlayerStore)
    (dislikedIds : list string)
    (localTracks discoveryTracks similarTracks : list UnifiedTrack)
    : list UnifiedTrack :=
  let interleaved := interleaveSources similarTracks discoveryTracks localTracks in
  let candidates := deduplicate normalizeTitle player st dislikedIds interleaved in
  selectTracks rankCandidates st candidates.

End FetchMoreTracks.

(** ** More sample data *)

(** A normalizer for examples: lower case only. *)
Definition lowerCaseOnly (title : string) : string := Js.toLowerCase title.

(** A track with an identity, an id, a title and one artist. *)
Definition titledTrack (n : nat) (tid title artist : string) : UnifiedTrack :=
  mkTrack n tid title [mkArtist artist artist] None None None.

(** Audio features with every field set. *)
Definition fullFeatures (bpm energy : Q) (key : string) (valence : Q)
    : AudioFeatures :=
  mkAudioFeatures (Some bpm) (Some energy) (Some key) (Some valence) None.

(** Three tracks by one artist, under three spellings, then two by another. *)
Definition fiveTracks : list UnifiedTrack :=
  [trackBy 1 "a1" "Abba"; trackBy 2 "a2" "ABBA"; trackBy 3 "a3" "abba";
   trackBy 4 "b1" "Blur"; trackBy 5 "b2" "Blur"].

(** A player store that plays the only track of its queue. *)
Definition playingQueuedSong : PlayerStore :=
  mkPlayer [titledTrack 10 "q1" "Queued Song" "Abba"] 0
    (Some (titledTrack 10 "q1" "Queued Song" "Abba")).

(** The store in auto-queue mode after one played track. *)
Definition afterPlayedSong : SmartQueueState :=
  recordTrackPlayed (titledTrack 11 "p1" "Played Song" "Blur") (autoQueueState 0).

Definition sampleLocal : list UnifiedTrack :=
  [titledTrack 1 "p1" "Played Song" "Blur";
   titledTrack 2 "l2" "Fresh Local" "Abba"].

Definition sampleDiscovery : list UnifiedTrack :=
  [titledTrack 3 "q1" "Queued Song" "Abba";
   titledTrack 4 "d2" "QUEUED SONG" "Cover Band";
   titledTrack 5 "x1" "Hated" "Zed";
   titledTrack 6 "d4" "Discovery Four" "Muse"].

Definition sampleSimilar : list UnifiedTrack :=
  [titledTrack 7 "s1" "Similar One" "Blur"].

(** Audio features with only a key. *)
Definition keyOnly (key : string) : AudioFeatures :=
  mkAudioFeatures None None (Some key) None None.

Definition seedWithKey (key : string) : RadioSeed :=
  mkSeed seed_track "seed" "Seed" None None (Some (keyOnly key)).

Definition trackWithKey (key : string) : UnifiedTrack :=
  mkTrack 0 "t0" "Track" [] None None (Some (keyOnly key)).

(** The ids [t1], [t2], ... and [a1], [a2], ... *)
Definition numbered (letter : string) (n : nat) : string :=
  String.append letter (NilZero.string_of_uint (Nat.to_uint n)).

(** A store whose session history is full: 200 track ids, [t1] the oldest,
    and 400 artist ids, [a1] the oldest. *)
Definition fullHistoryState : SmartQueueState :=
  mkState auto_queue None 0
    (mkSession (numbered "t" <$> seq 1 200) (numbered "a" <$> seq 1 400) 0)
    false 0 None 0 DEFAULT_CONFIG DEFAULT_RADIO_CONFIG [] ∅.

(** A track by two artists, the second without an id. *)
Definition duetTrack : UnifiedTrack :=
  mkTrack 201 "t201" "Duet" [mkArtist "a401" "First"; mkArtist "" "Second"]
    None None None.

(** One track by one artist, then two by another. *)
Definition threeTracks : list UnifiedTrack :=
  [trackBy 1 "a1" "Abba"; trackBy 2 "b1" "Blur"; trackBy 3 "b2" "Blur"].

(** * Properties *)

(** ** Key compatibility *)

Lemma KEY_POSITIONS_range (key : string) (pos : Z) :
  KEY_POSITIONS !! key = Some pos -> 0 <= pos < 12.
Proof.
  intros H. apply elem_of_list_to_map_2 in H.
  repeat (apply elem_of_cons in H as [H | H]; [injection H as _ ->; lia |]).
  by apply elem_of_nil in H.
Qed.

Lemma KEY_POSITIONS_truthy (key : string) (pos : Z) :
  KEY_POSITIONS !! key = Some pos -> Js.truthy key = true.
Proof. destruct key; [discriminate | reflexivity]. Qed.

Lemma keyDistance_circle (pos1 pos2 : Z) :
  0 <= pos1 < 12 -> 0 <= pos2 < 12 ->
  keyDistance pos1 pos2 = circle_distance pos1 pos2.
Proof.
  intros H1 H2.
  unfold keyDistance, circle_distance, clockwise_steps, counterclockwise_steps.
  destruct (Z.eq_dec pos1 pos2) as [-> | Hne].
  - rewrite Z.sub_diag. reflexivity.
  - destruct (Z.lt_ge_cases pos1 pos2).
    + replace ((pos1 - pos2) mod 12) with (12 - (pos2 - pos1)).
      * rewrite (Z.mod_small (pos2 - pos1)) by lia. lia.
      * apply (Z.mod_unique _ _ (-1)); lia.
    + replace ((pos2 - pos1) mod 12) with (12 - (pos1 - pos2)).
      * rewrite (Z.mod_small (pos1 - pos2)) by lia. lia.
      * apply (Z.mod_unique _ _ (-1)); lia.
Qed.

(** C1. For two keys of the key-position table, [calculateKeyCompatibility]
    is [max(0, 1 - distance * 0.2)], where [distance] is the smaller of the
    clockwise and the counterclockwise number of steps between their
    positions on the 12-position circle. *)
Theorem calculateKeyCompatibility_circle_of_fifths
    (key1 key2 : string) (pos1 pos2 : Z) :
  KEY_POSITIONS !! key1 = Some pos1 ->
  KEY_POSITIONS !! key2 = Some pos2 ->
  (calculateKeyCompatibility (Some key1) (Some key2)
   == Qmax 0 (1 - inject_Z (circle_distance pos1 pos2) * 0.2))%Q.
Proof.
  intros H1 H2. unfold calculateKeyCompatibility.
  rewrite (KEY_POSITIONS_truthy _ _ H1), (KEY_POSITIONS_truthy _ _ H2).
  cbn [negb orb]. rewrite H1, H2.
  rewrite keyDistance_circle by eauto using KEY_POSITIONS_range.
  reflexivity.
Qed.

(** C1 at the keys C and G, one step apart: the compatibility is 0.8. *)
Lemma calculateKeyCompatibility_C_G :
  KEY_POSITIONS !! "C" = Some 0 /\
  KEY_POSITIONS !! "G" = Some 1 /\
  circle_distance 0 1 = 1 /\
  (calculateKeyCompatibility (Some "C") (Some "G") == 0.8)%Q.
Proof.
  split; [reflexivity |]. split; [reflexivity |]. split; [reflexivity |].
  pose proof (calculateKeyCompatibility_circle_of_fifths "C" "G" 0 1
                eq_refl eq_refl) as H.
  rewrite H. reflexivity.
Defined.

(** ** Seed relevance *)

Lemma calculateKeyCompatibility_nonneg (key1 key2 : option string) :
  (0 <= calculateKeyCompatibility key1 key2)%Q.
Proof.
  unfold calculateKeyCompatibility.
  repeat case_match; try apply Q.le_max_l; discriminate.
Qed.

Lemma metadataRelevance_range (track : UnifiedTrack) (seed : RadioSeed) :
  0 <= metadataRelevance track seed <= 70.
Proof. unfold metadataRelevance. repeat case_match; lia. Qed.

Lemma bpmBonus_range (seedFeatures trackFeatures : AudioFeatures) :
  0 <= bpmBonus seedFeatures trackFeatures <= 12.
Proof. unfold bpmBonus. repeat case_match; lia. Qed.

Lemma energyBonus_range (seedFeatures trackFeatures : AudioFeatures) :
  0 <= energyBonus seedFeatures trackFeatures <= 12.
Proof. unfold energyBonus. repeat case_match; lia. Qed.

Lemma valenceBonus_range (seedFeatures trackFeatures : AudioFeatures) :
  0 <= valenceBonus seedFeatures trackFeatures <= 6.
Proof. unfold valenceBonus. repeat case_match; lia. Qed.

Lemma keyBonus_nonneg (seedFeatures trackFeatures : AudioFeatures) :
  0 <= keyBonus seedFeatures trackFeatures.
Proof.
  unfold keyBonus. repeat case_match; try lia.
  unfold Js.round. change 0 with (Qfloor 0). apply Qfloor_resp_le.
  pose proof (calculateKeyCompatibility_nonneg (Some s) (Some s0)).
  lra.
Qed.

Lemma audioBonus_nonneg (track : UnifiedTrack) (seed : RadioSeed) :
  0 <= audioBonus track seed.
Proof.
  unfold audioBonus. destruct (seed_audioFeatures seed) as [sf |]; [| lia].
  cbn zeta.
  pose proof (bpmBonus_range sf (default noFeatures (track_audioFeatures track))).
  pose proof (energyBonus_range sf (default noFeatures (track_audioFeatures track))).
  pose proof (valenceBonus_range sf (default noFeatures (track_audioFeatures track))).
  pose proof (keyBonus_nonneg sf (default noFeatures (track_audioFeatures track))).
  lia.
Qed.

Lemma audioBonus_without_features (track : UnifiedTrack) (seed : RadioSeed) :
  seed_audioFeatures seed = None \/ track_audioFeatures track = None ->
  audioBonus track seed = 0.
Proof.
  unfold audioBonus. intros [-> | ->]; [reflexivity |].
  destruct (seed_audioFeatures seed) as [sf |]; [| reflexivity].
  unfold bpmBonus, energyBonus, keyBonus, valenceBonus. simpl.
  repeat case_match; reflexivity.
Qed.

(** The metadata points are a function of the seed's type, id, name, artist
    ids and genres and of the track's artists and genres. *)
Lemma metadataRelevance_ext (track1 track2 : UnifiedTrack) (seed1 seed2 : RadioSeed) :
  track_artists track1 = track_artists track2 ->
  track_genres track1 = track_genres track2 ->
  seed_type seed1 = seed_type seed2 ->
  seed_id seed1 = seed_id seed2 ->
  seed_name seed1 = seed_name seed2 ->
  seed_artistIds seed1 = seed_artistIds seed2 ->
  seed_genres seed1 = seed_genres seed2 ->
  metadataRelevance track1 seed1 = metadataRelevance track2 seed2.
Proof.
  intros Ha Hg Ht Hi Hn Hs Hsg.
  unfold metadataRelevance, seedGenreMatch.
  rewrite Ha, Hg, Ht, Hi, Hn, Hs, Hsg. reflexivity.
Qed.

(** C3. When the seed and the candidate both have a [bpm] and
    [min(|seedBpm - trackBpm| / seedBpm, 1) <= 0.1], the BPM step adds 12 to
    the audio bonus that [calculateSeedRelevance] adds to the relevance. *)
Theorem calculateSeedRelevance_bpm_full_bonus
    (track : UnifiedTrack) (seed : RadioSeed)
    (seedFeatures trackFeatures : AudioFeatures) (seedBpm trackBpm : Q) :
  seed_audioFeatures seed = Some seedFeatures ->
  track_audioFeatures track = Some trackFeatures ->
  af_bpm seedFeatures = Some seedBpm ->
  af_bpm trackFeatures = Some trackBpm ->
  Js.leb (Js.min_with (Js.quot (Qabs (seedBpm - trackBpm)) seedBpm) 1) 0.1 = true ->
  bpmBonus seedFeatures trackFeatures = 12 /\
  audioBonus track seed =
    12 + energyBonus seedFeatures trackFeatures
       + keyBonus seedFeatures trackFeatures
       + valenceBonus seedFeatures trackFeatures /\
  calculateSeedRelevance track seed =
    Z.min 100 (metadataRelevance track seed
               + (12 + energyBonus seedFeatures trackFeatures
                     + keyBonus seedFeatures trackFeatures
                     + valenceBonus seedFeatures trackFeatures)).
Proof.
  intros Hs Ht Hsb Htb Hratio.
  assert (Hb : bpmBonus seedFeatures trackFeatures = 12).
  { unfold bpmBonus, bpmRatio. rewrite Hsb, Htb, Hratio. reflexivity. }
  assert (Ha : audioBonus track seed =
    12 + energyBonus seedFeatures trackFeatures
       + keyBonus seedFeatures trackFeatures
       + valenceBonus seedFeatures trackFeatures).
  { unfold audioBonus. rewrite Hs, Ht.
    change (default noFeatures (Some trackFeatures)) with trackFeatures.
    cbn zeta. rewrite Hb. reflexivity. }
  split; [exact Hb |]. split; [exact Ha |].
  unfold calculateSeedRelevance. cbn zeta. rewrite Ha. reflexivity.
Qed.

(** C3 at a seed of 120 bpm and a candidate of 125 bpm: the ratio is
    5/120, and the candidate gets the 12 points. *)
Lemma calculateSeedRelevance_bpm_120_125 :
  bpmRatio 120 125 = Js.Finite (Qmin (Qabs (120 - 125) / 120) 1) /\
  (Qmin (Qabs (120 - 125) / 120) 1 == 5 # 120)%Q /\
  bpmBonus (bpmOnly 120) (bpmOnly 125) = 12 /\
  audioBonus (trackWithBpm 125) (seedWithBpm 120) = 12 /\
  calculateSeedRelevance (trackWithBpm 125) (seedWithBpm 120) = 12.
Proof.
  destruct (calculateSeedRelevance_bpm_full_bonus
              (trackWithBpm 125) (seedWithBpm 120) (bpmOnly 120) (bpmOnly 125)
              120 125 eq_refl eq_refl eq_refl eq_refl eq_refl)
    as (Hb & Ha & Hr).
  split; [reflexivity |]. split; [reflexivity |].
  split; [exact Hb |]. split; [exact Ha | exact Hr].
Defined.

(** With the keys looked up among the entries of the table,
    [calculateSeedRelevance] returns a value between 0 and 100; the
    metadata points and each of the four audio steps add a non-negative
    amount; and when the seed or the track has no audio features the result
    is the metadata points alone, which only the artist and genre fields
    determine. *)
Lemma calculateSeedRelevance_range :
  (forall track seed, 0 <= calculateSeedRelevance track seed <= 100) /\
  (forall track seed, 0 <= metadataRelevance track seed) /\
  (forall seedFeatures trackFeatures,
     0 <= bpmBonus seedFeatures trackFeatures /\
     0 <= energyBonus seedFeatures trackFeatures /\
     0 <= keyBonus seedFeatures trackFeatures /\
     0 <= valenceBonus seedFeatures trackFeatures) /\
  (forall track seed,
     seed_audioFeatures seed = None \/ track_audioFeatures track = None ->
     calculateSeedRelevance track seed = metadataRelevance track seed) /\
  (forall track1 track2 seed1 seed2,
     seed_audioFeatures seed1 = None \/ track_audioFeatures track1 = None ->
     seed_audioFeatures seed2 = None \/ track_audioFeatures track2 = None ->
     track_artists track1 = track_artists track2 ->
     track_genres track1 = track_genres track2 ->
     seed_type seed1 = seed_type seed2 ->
     seed_id seed1 = seed_id seed2 ->
     seed_name seed1 = seed_name seed2 ->
     seed_artistIds seed1 = seed_artistIds seed2 ->
     seed_genres seed1 = seed_genres seed2 ->
     calculateSeedRelevance track1 seed1 = calculateSeedRelevance track2 seed2).
Proof.
  assert (Hlack : forall track seed,
     seed_audioFeatures seed = None \/ track_audioFeatures track = None ->
     calculateSeedRelevance track seed = metadataRelevance track seed).
  { intros track seed H. unfold calculateSeedRelevance. cbn zeta.
    rewrite (audioBonus_without_features _ _ H).
    pose proof (metadataRelevance_range track seed). lia. }
  split; [| split; [| split; [| split]]].
  - intros track seed. unfold calculateSeedRelevance. cbn zeta.
    pose proof (metadataRelevance_range track seed).
    pose proof (audioBonus_nonneg track seed). lia.
  - intros track seed. apply metadataRelevance_range.
  - intros sf tf.
    pose proof (bpmBonus_range sf tf). pose proof (energyBonus_range sf tf).
    pose proof (valenceBonus_range sf tf). pose proof (keyBonus_nonneg sf tf).
    lia.
  - exact Hlack.
  - intros t1 t2 s1 s2 H1 H2 Ha Hg Ht Hi Hn Hs Hsg.
    rewrite (Hlack _ _ H1), (Hlack _ _ H2).
    by apply metadataRelevance_ext.
Qed.

(** On keys that name no inherited member the functions with the inherited
    members are the functions on the entries of the table. *)
Lemma Proto_calculateKeyCompatibility_own (key1 key2 : string) :
  Obj.inherited key1 = false ->
  Obj.inherited key2 = false ->
  Proto.calculateKeyCompatibility (Some key1) (Some key2)
  = Some (calculateKeyCompatibility (Some key1) (Some key2)).
Proof.
  intros H1 H2.
  unfold Proto.calculateKeyCompatibility, calculateKeyCompatibility, Obj.read.
  rewrite H1, H2.
  destruct (negb (Js.truthy key1) || negb (Js.truthy key2)); [reflexivity |].
  destruct (KEY_POSITIONS !! key1), (KEY_POSITIONS !! key2); reflexivity.
Qed.

Lemma Proto_calculateSeedRelevance_own (track : UnifiedTrack) (seed : RadioSeed) :
  ownKeyNames track seed = true ->
  Proto.calculateSeedRelevance track seed
  = Some (calculateSeedRelevance track seed).
Proof.
  unfold ownKeyNames. cbn zeta. intros H.
  apply andb_true_iff in H as [Hs Ht].
  unfold Proto.calculateSeedRelevance, calculateSeedRelevance,
    Proto.audioBonus, audioBonus.
  destruct (seed_audioFeatures seed) as [sf |]; [| reflexivity].
  cbn zeta.
  assert (Hkey : Proto.keyBonus sf (default noFeatures (track_audioFeatures track))
                 = Some (keyBonus sf (default noFeatures (track_audioFeatures track)))).
  { unfold Proto.keyBonus, keyBonus.
    destruct (track_audioFeatures track) as [tf |].
    - change (default noFeatures (Some tf)) with tf.
      cbn in Hs, Ht.
      destruct (af_key sf) as [k1 |]; [| reflexivity].
      destruct (af_key tf) as [k2 |]; [| reflexivity].
      apply negb_true_iff in Hs, Ht.
      rewrite (Proto_calculateKeyCompatibility_own _ _ Hs Ht). reflexivity.
    - change (default noFeatures None) with noFeatures.
      cbn [af_key noFeatures]. by destruct (af_key sf). }
  rewrite Hkey. reflexivity.
Qed.

(** C10. The claimed range does not hold for every seed: with the key
    ['constructor'] on the seed and the key ['C'] on the track,
    [KEY_POSITIONS['constructor']] is the inherited function [Object], which
    passes the [=== undefined] test, and [calculateSeedRelevance] returns
    [NaN].  On every track and seed whose keys name no inherited member it
    returns a value between 0 and 100. *)
Theorem calculateSeedRelevance_inherited_key :
  Obj.read KEY_POSITIONS "constructor" = Obj.Member /\
  Proto.calculateKeyCompatibility (Some "constructor") (Some "C") = None /\
  Proto.calculateSeedRelevance (trackWithKey "C") (seedWithKey "constructor")
  = None /\
  (forall track seed,
     ownKeyNames track seed = true ->
     exists relevance,
       Proto.calculateSeedRelevance track seed = Some relevance /\
       0 <= relevance <= 100).
Proof.
  split; [reflexivity |]. split; [reflexivity |]. split; [reflexivity |].
  intros track seed Hown.
  exists (calculateSeedRelevance track seed).
  split; [by apply Proto_calculateSeedRelevance_own |].
  apply calculateSeedRelevance_range.
Qed.

(** ** Progressive drift in radio mode *)




Section BaseScoresFacts.

Variable getHybridScore : UnifiedTrack -> Q.
Variable calculateTrackScore : UnifiedTrack -> Q.
Variable isModelLoaded : bool.

Local Abbreviation score_of :=
  (baseScore getHybridScore calculateTrackScore isModelLoaded).
Local Abbreviation scores_of :=
  (baseScores getHybridScore calculateTrackScore isModelLoaded).



End BaseScoresFacts.



(** ** Replenishment guards *)

Lemma QueueMode_eqb_eq (a b : QueueMode) : QueueMode_eqb a b = true <-> a = b.
Proof. destruct a, b; cbn; split; congruence. Qed.

Lemma QueueMode_eqb_neq (a b : QueueMode) : QueueMode_eqb a b = false <-> a <> b.
Proof. destruct a, b; cbn; split; congruence. Qed.

(** Each of the five guards returns before anything is fetched or set. *)
Lemma checkAndReplenish_blocked
    (isLiked : string -> bool)
    (addToQueue : PlayerStore -> UnifiedTrack -> PlayerStore)
    (st : SmartQueueState) (player : PlayerStore)
    (now : Z) (outcome : FetchOutcome) (later : Z) :
  mode st = manual \/
  (autoQueueEnabled (config st) = false /\ mode st <> radio) \/
  isAutoQueueFetching st = true \/
  now - lastAutoQueueFetch st < 5000 \/
  Z.of_nat (length (queue player)) - queueIndex player - 1
    > autoQueueThreshold (config st) ->
  checkAndReplenish isLiked addToQueue st player now outcome later
  = mkReplenished st player false.
Proof.
  intros H. unfold checkAndReplenish. cbn zeta.
  destruct (QueueMode_eqb (mode st) manual) eqn:Hmanual; [reflexivity |].
  destruct (negb (autoQueueEnabled (config st))
            && negb (QueueMode_eqb (mode st) radio)) eqn:Hoff; [reflexivity |].
  destruct (isAutoQueueFetching st) eqn:Hfetching; [reflexivity |].
  destruct (now - lastAutoQueueFetch st <? MIN_FETCH_INTERVAL_MS) eqn:Hrate;
    [reflexivity |].
  destruct (Z.of_nat (length (queue player)) - queueIndex player - 1
            <=? autoQueueThreshold (config st)) eqn:Hlow; [| reflexivity].
  exfalso. destruct H as [Hm | [[Hdis Hnr] | [Hf | [Hr | Hq]]]].
  - apply QueueMode_eqb_neq in Hmanual. contradiction.
  - apply QueueMode_eqb_neq in Hnr. rewrite Hdis, Hnr in Hoff. discriminate.
  - discriminate.
  - unfold MIN_FETCH_INTERVAL_MS in Hrate. lia.
  - lia.
Qed.

(** C6. [checkAndReplenish] starts no fetch, and changes nothing, when the
    mode is manual, when auto-queue is disabled outside radio mode, when a
    fetch is in flight, when fewer than 5 seconds have passed since the last
    fetch, or when more tracks remain than the threshold (2 by default). *)
Theorem checkAndReplenish_guards
    (isLiked : string -> bool)
    (addToQueue : PlayerStore -> UnifiedTrack -> PlayerStore)
    (st : SmartQueueState) (player : PlayerStore)
    (now : Z) (outcome : FetchOutcome) (later : Z) :
  mode st = manual \/
  (autoQueueEnabled (config st) = false /\ mode st <> radio) \/
  isAutoQueueFetching st = true \/
  now - lastAutoQueueFetch st < 5000 \/
  Z.of_nat (length (queue player)) - queueIndex player - 1
    > autoQueueThreshold (config st) ->
  fetchStarted (checkAndReplenish isLiked addToQueue st player now outcome later)
    = false /\
  checkAndReplenish isLiked addToQueue st player now outcome later
    = mkReplenished st player false /\
  MIN_FETCH_INTERVAL_MS = 5000 /\
  autoQueueThreshold DEFAULT_CONFIG = 2.
Proof.
  intros H.
  rewrite (checkAndReplenish_blocked isLiked addToQueue st player now outcome
             later H).
  repeat split.
Qed.

(** C6 in auto-queue mode one second after a fetch: nothing is fetched. *)
Lemma checkAndReplenish_rate_limited :
  1000 - lastAutoQueueFetch (autoQueueState 0) < 5000 /\
  fetchStarted
    (checkAndReplenish (fun _ => false) appendToQueue (autoQueueState 0)
       (playerWith 1) 1000 (Resolved [trackBy 7 "new" "New"]) 1200)
  = false.
Proof.
  split; [reflexivity |].
  apply (checkAndReplenish_guards (fun _ => false) appendToQueue
           (autoQueueState 0) (playerWith 1) 1000
           (Resolved [trackBy 7 "new" "New"]) 1200).
  right. right. right. left. reflexivity.
Defined.



(** ** Session history *)

Lemma slice_last_length {A} (n : nat) (l : list A) :
  (length (Js.slice_last n l) <= n)%nat.
Proof. unfold Js.slice_last. rewrite length_drop. lia. Qed.

Lemma slice_last_suffix {A} (n : nat) (l : list A) :
  l = take (length l - n) l ++ Js.slice_last n l.
Proof. unfold Js.slice_last. symmetry. apply take_drop. Qed.

Lemma slice_last_short {A} (n : nat) (l : list A) :
  (length l <= n)%nat -> Js.slice_last n l = l.
Proof.
  intros H. unfold Js.slice_last.
  replace (length l - n)%nat with 0%nat by lia. reflexivity.
Qed.

Lemma slice_last_exact {A} (n : nat) (l : list A) :
  length (Js.slice_last n l) = Nat.min n (length l).
Proof. unfold Js.slice_last. rewrite length_drop. lia. Qed.

(** C7. From a session history of at most 200 track ids and 400 artist ids,
    [recordTrackPlayed] gives one of at most 200 track ids and 400 artist
    ids.  The new lists are the old ones, with the id of the track and the
    ids of its artists appended, less their oldest entries: a front is
    dropped, and it has just as many entries as the extended list has above
    the bound (none when the list fits), so that the newest 200 and 400
    entries are all kept. *)
Theorem recordTrackPlayed_bounds (track : UnifiedTrack) (st : SmartQueueState) :
  (length (playedTrackIds (sessionHistory st)) <= 200)%nat ->
  (length (playedArtistIds (sessionHistory st)) <= 400)%nat ->
  (length (playedTrackIds (sessionHistory (recordTrackPlayed track st)))
     <= 200)%nat /\
  (length (playedArtistIds (sessionHistory (recordTrackPlayed track st)))
     <= 400)%nat /\
  (exists oldest : list string,
     playedTrackIds (sessionHistory st) ++ [track_id track]
     = oldest ++ playedTrackIds (sessionHistory (recordTrackPlayed track st)) /\
     length oldest
     = (length (playedTrackIds (sessionHistory st)) + 1 - 200)%nat) /\
  (exists oldest : list string,
     playedArtistIds (sessionHistory st) ++ map artistKey (track_artists track)
     = oldest ++ playedArtistIds (sessionHistory (recordTrackPlayed track st)) /\
     length oldest
     = (length (playedArtistIds (sessionHistory st))
        + length (track_artists track) - 400)%nat) /\
  length (playedTrackIds (sessionHistory (recordTrackPlayed track st)))
  = Nat.min 200 (length (playedTrackIds (sessionHistory st)) + 1) /\
  length (playedArtistIds (sessionHistory (recordTrackPlayed track st)))
  = Nat.min 400 (length (playedArtistIds (sessionHistory st))
                 + length (track_artists track)) /\
  last (playedTrackIds (sessionHistory (recordTrackPlayed track st)))
  = Some (track_id track).
Proof.
  intros Ht Ha. cbn [recordTrackPlayed sessionHistory playedTrackIds playedArtistIds].
  split; [apply (slice_last_length 200) |].
  split; [apply (slice_last_length 400) |].
  split.
  { eexists. split; [apply (slice_last_suffix MAX_SESSION_HISTORY) |].
    rewrite length_take, length_app. cbn [length].
    unfold MAX_SESSION_HISTORY. lia. }
  split.
  { eexists. split; [apply (slice_last_suffix (MAX_SESSION_HISTORY * 2)) |].
    rewrite length_take, length_app, length_map.
    unfold MAX_SESSION_HISTORY. lia. }
  split.
  { rewrite slice_last_exact, length_app. reflexivity. }
  split.
  { rewrite slice_last_exact, length_app, length_map. reflexivity. }
  unfold Js.slice_last.
  rewrite drop_app_le
    by (rewrite length_app; cbn [length]; unfold MAX_SESSION_HISTORY; lia).
  apply last_snoc.
Qed.

(** C7 on a full history, the track ids [t1] to [t200] and the artist ids
    [a1] to [a400]: recording [t201], a track by two artists, drops [t1],
    [a1] and [a2], keeps [t2] to [t200] and [a3] to [a400] in their order
    and appends the new ids, so that the history is full again. *)
Lemma recordTrackPlayed_full_history :
  length (playedTrackIds (sessionHistory fullHistoryState)) = 200%nat /\
  length (playedArtistIds (sessionHistory fullHistoryState)) = 400%nat /\
  playedTrackIds (sessionHistory (recordTrackPlayed duetTrack fullHistoryState))
  = (numbered "t" <$> seq 2 199) ++ ["t201"] /\
  playedArtistIds (sessionHistory (recordTrackPlayed duetTrack fullHistoryState))
  = (numbered "a" <$> seq 3 398) ++ ["a401"; "Second"] /\
  take 3 (playedTrackIds
            (sessionHistory (recordTrackPlayed duetTrack fullHistoryState)))
  = ["t2"; "t3"; "t4"] /\
  (length (playedTrackIds
             (sessionHistory (recordTrackPlayed duetTrack fullHistoryState)))
     <= 200)%nat /\
  (length (playedArtistIds
             (sessionHistory (recordTrackPlayed duetTrack fullHistoryState)))
     <= 400)%nat /\
  length (playedTrackIds
            (sessionHistory (recordTrackPlayed duetTrack fullHistoryState)))
  = Nat.min 200 (length (playedTrackIds (sessionHistory fullHistoryState)) + 1) /\
  last (playedTrackIds
          (sessionHistory (recordTrackPlayed duetTrack fullHistoryState)))
  = Some "t201".
Proof.
  assert (Ht : (length (playedTrackIds (sessionHistory fullHistoryState))
                <= 200)%nat)
    by (vm_compute; lia).
  assert (Ha : (length (playedArtistIds (sessionHistory fullHistoryState))
                <= 400)%nat)
    by (vm_compute; lia).
  destruct (recordTrackPlayed_bounds duetTrack fullHistoryState Ht Ha)
    as (Htracks & Hartists & _ & _ & Hlen & _ & Hlast).
  split; [vm_compute; reflexivity |]. split; [vm_compute; reflexivity |].
  split; [vm_compute; reflexivity |]. split; [vm_compute; reflexivity |].
  split; [vm_compute; reflexivity |].
  split; [exact Htracks |]. split; [exact Hartists |].
  split; [exact Hlen | exact Hlast].
Defined.

(** On a fresh store the first played track makes a history of one track id
    and one artist id: nothing is dropped. *)
Lemma recordTrackPlayed_first_track :
  sessionHistory (recordTrackPlayed (trackBy 1 "t1" "Abba") (initialState 0))
  = mkSession ["t1"] ["Abba"] 0.
Proof. reflexivity. Qed.

(** C5, as stated, fails.  A session starts at time 0; 4 hours later a track
    is played; 1 ms after that [resetSession] runs.  Only 1 ms has passed
    without activity, yet the history, which held the played track, is
    cleared. *)
Lemma resetSession_clears_an_active_session :
  clock (runSession (startTimeline 0)
           [Wait 14400000; Play (trackBy 1 "t1" "Abba"); Wait 1]) = 14400001 /\
  lastActivity (runSession (startTimeline 0)
           [Wait 14400000; Play (trackBy 1 "t1" "Abba"); Wait 1]) = 14400000 /\
  idleForFourHours (runSession (startTimeline 0)
           [Wait 14400000; Play (trackBy 1 "t1" "Abba"); Wait 1]) = false /\
  sessionHistory (store (runSession (startTimeline 0)
           [Wait 14400000; Play (trackBy 1 "t1" "Abba"); Wait 1]))
    = mkSession ["t1"] ["Abba"] 0 /\
  sessionHistory (store (runSession (startTimeline 0)
           [Wait 14400000; Play (trackBy 1 "t1" "Abba"); Wait 1; ResetCall]))
    = mkSession [] [] 14400001.
Proof. repeat split. Qed.

(** C5, amended.  [resetSession] clears the session exactly when more than
    4 hours have passed since [sessionStartTime], which is the time of the
    last clear and which playing a track does not renew; otherwise it leaves
    the store as it is.  [clearSession] always empties both lists, renews the
    start time and zeroes the radio counter. *)
Theorem resetSession_since_session_start (st : SmartQueueState) (now : Z) :
  SESSION_TIMEOUT_MS = 14400000 /\
  (now - sessionStartTime (sessionHistory st) > 14400000 ->
   resetSession now st = clearSession now st) /\
  (now - sessionStartTime (sessionHistory st) <= 14400000 ->
   resetSession now st = st) /\
  sessionHistory (clearSession now st) = mkSession [] [] now /\
  radioTracksPlayed (clearSession now st) = 0 /\
  (forall track,
     sessionStartTime (sessionHistory (recordTrackPlayed track st))
     = sessionStartTime (sessionHistory st)).
Proof.
  split; [reflexivity |].
  unfold resetSession, SESSION_TIMEOUT_MS. cbn zeta.
  split; [| split].
  - intros H.
    destruct (now - sessionStartTime (sessionHistory st) >? 4 * 60 * 60 * 1000)
      eqn:E; [reflexivity | lia].
  - intros H.
    destruct (now - sessionStartTime (sessionHistory st) >? 4 * 60 * 60 * 1000)
      eqn:E; [lia | reflexivity].
  - repeat split.
Qed.

(** ** Exploration mode *)

Lemma Qltb_lt (a b : Q) : Qltb a b = true <-> (a < b)%Q.
Proof.
  unfold Qltb. rewrite negb_true_iff, <- not_true_iff_false, Qle_bool_iff.
  split; [apply Qnot_le_lt | apply Qlt_not_le].
Qed.

Lemma Qltb_ge (a b : Q) : Qltb a b = false <-> (b <= a)%Q.
Proof.
  unfold Qltb. rewrite negb_false_iff. apply Qle_bool_iff.
Qed.

(** The ratio of the code against the thresholds, without the division. *)
Lemma discoveryRatio_above (localCount discoveryCount : Z) :
  (0.6 < discoveryRatio localCount discoveryCount)%Q
  <-> 6 * Z.max 1 (localCount + discoveryCount) < 10 * discoveryCount.
Proof.
  unfold discoveryRatio.
  destruct (Z.max 1 (localCount + discoveryCount)) as [| p | p] eqn:E; try lia.
  rewrite <- Qmake_Qdiv. unfold Qlt. cbn [Qnum Qden]. lia.
Qed.

Lemma discoveryRatio_below (localCount discoveryCount : Z) :
  (discoveryRatio localCount discoveryCount < 0.3)%Q
  <-> 10 * discoveryCount < 3 * Z.max 1 (localCount + discoveryCount).
Proof.
  unfold discoveryRatio.
  destruct (Z.max 1 (localCount + discoveryCount)) as [| p | p] eqn:E; try lia.
  rewrite <- Qmake_Qdiv. unfold Qlt. cbn [Qnum Qden]. lia.
Qed.

(** C8, as stated, fails.  With one local and one discovery candidate the
    ratio of discovery to local candidates is 1, above 0.6, which the
    specification maps to exploit; the code divides by the total, gets 0.5,
    and chooses balanced. *)
Lemma explorationMode_one_local_one_discovery :
  discoveryToLocalRatio [trackBy 1 "l1" "Abba"] [trackBy 2 "d1" "Blur"]
    = Js.Finite (1 / 1) /\
  modeFromRatio
    (discoveryToLocalRatio [trackBy 1 "l1" "Abba"] [trackBy 2 "d1" "Blur"])
    = exploit /\
  (discoveryRatio 1 1 == 0.5)%Q /\
  explorationMode [trackBy 1 "l1" "Abba"] [trackBy 2 "d1" "Blur"] [] = balanced.
Proof. repeat split. Qed.

(** C8, amended.  The mode is chosen from the share of the discovery and
    similar candidates among all gathered candidates,
    [discoveryCount / max(1, localCount + discoveryCount)]: exploit when the
    share exceeds 0.6, explore when it is below 0.3, balanced otherwise.  In
    whole numbers: exploit when [6 * total < 10 * discoveryCount], explore
    when [10 * discoveryCount < 3 * total], with [total] at least 1. *)
Theorem explorationMode_by_discovery_share
    (localTracks discoveryTracks similarTracks : list UnifiedTrack) :
  explorationMode localTracks discoveryTracks similarTracks
  = modeFromRatio
      (Js.Finite
         (inject_Z (Z.of_nat (length discoveryTracks + length similarTracks))
          / inject_Z (Z.max 1 (Z.of_nat (length localTracks + length discoveryTracks
                                          + length similarTracks))))) /\
  explorationMode localTracks discoveryTracks similarTracks
  = (if 6 * Z.max 1 (Z.of_nat (length localTracks + length discoveryTracks
                               + length similarTracks))
        <? 10 * Z.of_nat (length discoveryTracks + length similarTracks)
     then exploit
     else if 10 * Z.of_nat (length discoveryTracks + length similarTracks)
             <? 3 * Z.max 1 (Z.of_nat (length localTracks + length discoveryTracks
                                       + length similarTracks))
     then explore
     else balanced).
Proof.
  unfold explorationMode. cbn zeta.
  replace (Z.of_nat (length discoveryTracks + length similarTracks))
    with (Z.of_nat (length discoveryTracks) + Z.of_nat (length similarTracks))
    by lia.
  replace (Z.of_nat (length localTracks + length discoveryTracks
                     + length similarTracks))
    with (Z.of_nat (length localTracks)
          + (Z.of_nat (length discoveryTracks) + Z.of_nat (length similarTracks)))
    by lia.
  set (l := Z.of_nat (length localTracks)).
  set (d := Z.of_nat (length discoveryTracks) + Z.of_nat (length similarTracks)).
  split.
  - unfold modeFromRatio, Js.gtb, Js.ltb, Qltb, discoveryRatio. reflexivity.
  - destruct (Qltb 0.6 (discoveryRatio l d)) eqn:Ha.
    + apply Qltb_lt, discoveryRatio_above in Ha.
      apply Z.ltb_lt in Ha. rewrite Ha. reflexivity.
    + apply Qltb_ge in Ha.
      assert (Hn : (6 * Z.max 1 (l + d) <? 10 * d) = false).
      { apply Z.ltb_ge. apply Z.nlt_ge. intros Hlt.
        apply discoveryRatio_above in Hlt. lra. }
      rewrite Hn.
      destruct (Qltb (discoveryRatio l d) 0.3) eqn:Hb.
      * apply Qltb_lt, discoveryRatio_below in Hb.
        apply Z.ltb_lt in Hb. rewrite Hb. reflexivity.
      * apply Qltb_ge in Hb.
        assert (Hm : (10 * d <? 3 * Z.max 1 (l + d)) = false).
        { apply Z.ltb_ge. apply Z.nlt_ge. intros Hlt.
          apply discoveryRatio_below in Hlt. lra. }
        rewrite Hm. reflexivity.
Qed.

(** ** Diversity filter *)

Lemma artistOccurrences_nil (a : string) : artistOccurrences a [] = 0.
Proof. reflexivity. Qed.

Lemma artistOccurrences_cons (a : string) (t : UnifiedTrack) (l : list UnifiedTrack) :
  artistOccurrences a (t :: l)
  = (if String.eqb (mainArtist t) a then 1 else 0) + artistOccurrences a l.
Proof.
  unfold artistOccurrences. cbn [List.filter].
  destruct (String.eqb (mainArtist t) a); cbn [length]; lia.
Qed.

Lemma artistOccurrences_app (a : string) (l1 l2 : list UnifiedTrack) :
  artistOccurrences a (l1 ++ l2) = artistOccurrences a l1 + artistOccurrences a l2.
Proof.
  unfold artistOccurrences. rewrite List.filter_app, length_app. lia.
Qed.

Lemma artistOccurrences_nonneg (a : string) (l : list UnifiedTrack) :
  0 <= artistOccurrences a l.
Proof. unfold artistOccurrences. lia. Qed.

Lemma artistOccurrences_take (a : string) (n : nat) (l : list UnifiedTrack) :
  artistOccurrences a (take n l) <= artistOccurrences a l.
Proof.
  rewrite <- (take_drop n l) at 2. rewrite artistOccurrences_app.
  pose proof (artistOccurrences_nonneg a (drop n l)). lia.
Qed.

Lemma artistOccurrences_elem (a : string) (l : list UnifiedTrack) :
  a ∈ mainArtist <$> l -> 1 <= artistOccurrences a l.
Proof.
  induction l as [| t l IH]; intros Hin.
  - by apply elem_of_nil in Hin.
  - rewrite artistOccurrences_cons. cbn in Hin.
    pose proof (artistOccurrences_nonneg a l).
    apply elem_of_cons in Hin as [-> | Hin].
    + rewrite String.eqb_refl. lia.
    + specialize (IH Hin). destruct (String.eqb (mainArtist t) a); lia.
Qed.

Lemma countsAgree_empty : countsAgree ∅ [].
Proof. intros a. rewrite lookup_empty. reflexivity. Qed.

Lemma countsAgree_push artistCounts result track :
  countsAgree artistCounts result ->
  countsAgree
    (<[mainArtist track := default 0 (artistCounts !! mainArtist track) + 1]>
       artistCounts)
    (result ++ [track]).
Proof.
  intros H a. rewrite artistOccurrences_app, artistOccurrences_cons,
    artistOccurrences_nil.
  destruct (String.eqb_spec (mainArtist track) a) as [<- | Hne].
  - rewrite lookup_insert_eq. cbn. rewrite (H (mainArtist track)). lia.
  - rewrite lookup_insert_ne by exact Hne. rewrite (H a). lia.
Qed.

(** The loop keeps every artist under the cap, and unless it stops at the
    limit it fills every artist up to the cap or to what the input has. *)
Lemma diversityLoop_spec (limit maxPerArtist : Z) (tracks : list UnifiedTrack) :
  forall result artistCounts,
    countsAgree artistCounts result ->
    (forall a,
       artistOccurrences a (diversityLoop limit maxPerArtist tracks result artistCounts).1
       <= Z.max maxPerArtist (artistOccurrences a result)) /\
    (limit <= Z.of_nat (length
        (diversityLoop limit maxPerArtist tracks result artistCounts).1) \/
     forall a,
       Z.min maxPerArtist (artistOccurrences a result + artistOccurrences a tracks)
       <= artistOccurrences a
            (diversityLoop limit maxPerArtist tracks result artistCounts).1).
Proof.
  induction tracks as [| track rest IH]; intros result artistCounts Hagree.
  - cbn. split; [intros a; lia |]. right. intros a.
    rewrite artistOccurrences_nil. lia.
  - cbn [diversityLoop].
    destruct (Z.of_nat (length result) >=? limit) eqn:Hfull.
    { cbn. split; [intros a; lia | left; lia]. }
    cbn zeta.
    destruct (default 0 (artistCounts !! mainArtist track) <? maxPerArtist)
      eqn:Hroom.
    + destruct (IH _ _ (countsAgree_push _ _ track Hagree)) as [Hcap Hfill].
      split.
      * intros a. specialize (Hcap a).
        rewrite artistOccurrences_app, artistOccurrences_cons,
          artistOccurrences_nil in Hcap.
        pose proof (Hagree (mainArtist track)) as Hc.
        destruct (String.eqb_spec (mainArtist track) a) as [Heq | Hne];
          [rewrite <- Heq in * |]; lia.
      * destruct Hfill as [Hfill | Hfill]; [left; exact Hfill | right].
        intros a. specialize (Hfill a).
        rewrite artistOccurrences_app, !artistOccurrences_cons,
          artistOccurrences_nil in Hfill.
        rewrite artistOccurrences_cons. lia.
    + destruct (IH _ _ Hagree) as [Hcap Hfill].
      split; [exact Hcap |].
      destruct Hfill as [Hfill | Hfill]; [left; exact Hfill | right].
      intros a. specialize (Hfill a).
      rewrite artistOccurrences_cons.
      pose proof (Hagree (mainArtist track)) as Hc.
      pose proof (artistOccurrences_nonneg a rest).
      destruct (String.eqb_spec (mainArtist track) a) as [Heq | Hne];
        [rewrite <- Heq in * |]; lia.
Qed.

Lemma filter_split_length {A} (f : A -> bool) (l : list A) :
  length l
  = (length (List.filter f l) + length (List.filter (fun x => negb (f x)) l))%nat.
Proof.
  induction l as [| x l IH]; [reflexivity |].
  cbn. destruct (f x); cbn; lia.
Qed.

Lemma artistOccurrences_without (a b : string) (l : list UnifiedTrack) :
  a <> b ->
  artistOccurrences b
    (List.filter (fun t => negb (String.eqb (mainArtist t) a)) l)
  = artistOccurrences b l.
Proof.
  intros Hne. induction l as [| t l IH]; [reflexivity |].
  cbn [List.filter].
  destruct (String.eqb_spec (mainArtist t) a) as [Heq | Hdiff]; cbn [negb].
  - rewrite IH, artistOccurrences_cons.
    destruct (String.eqb_spec (mainArtist t) b); [congruence | lia].
  - rewrite !artistOccurrences_cons, IH. reflexivity.
Qed.

(** Distinct artists with at least [k] tracks each make at least
    [k * distinct] tracks. *)
Lemma enough_tracks_for_artists (k : Z) (artists : list string) :
  NoDup artists ->
  forall l : list UnifiedTrack,
    (forall a, a ∈ artists -> k <= artistOccurrences a l) ->
    k * Z.of_nat (length artists) <= Z.of_nat (length l).
Proof.
  induction 1 as [| a artists Hfresh Hnodup IH]; intros l Hall.
  - cbn. lia.
  - pose proof (Hall a ltac:(left)) as Ha.
    specialize (IH (List.filter (fun t => negb (String.eqb (mainArtist t) a)) l)).
    assert (Hrest : k * Z.of_nat (length artists)
                    <= Z.of_nat (length
                         (List.filter (fun t => negb (String.eqb (mainArtist t) a)) l))).
    { apply IH. intros b Hb.
      rewrite artistOccurrences_without.
      - apply Hall. by right.
      - intros ->. contradiction. }
    rewrite (filter_split_length (fun t => String.eqb (mainArtist t) a) l).
    unfold artistOccurrences in Ha. cbn [length]. lia.
Qed.

Lemma cappedSelection_cap (tracks : list UnifiedTrack) (limit maxPerArtist : Z) (a : string) :
  artistOccurrences a (cappedSelection tracks limit maxPerArtist)
  <= Z.max maxPerArtist 0.
Proof.
  unfold cappedSelection.
  destruct (diversityLoop_spec limit maxPerArtist tracks [] ∅ countsAgree_empty)
    as [Hcap _].
  specialize (Hcap a). rewrite artistOccurrences_nil in Hcap. exact Hcap.
Qed.

Lemma enoughPerArtist_spec (k : Z) (l : list UnifiedTrack) (a : string) :
  enoughPerArtist k l = true ->
  a ∈ mainArtist <$> l ->
  k <= artistOccurrences a l.
Proof.
  unfold enoughPerArtist. rewrite forallb_forall. intros Hall Hin.
  apply list_elem_of_fmap in Hin as (t & -> & Ht).
  apply list_elem_of_In in Ht. specialize (Hall t Ht). lia.
Qed.

(** With at least [maxPerArtist] tracks per artist, the pass under the cap
    selects [limit] tracks or [maxPerArtist] for each artist. *)
Lemma cappedSelection_length (tracks : list UnifiedTrack) (limit maxPerArtist : Z) :
  enoughPerArtist maxPerArtist tracks = true ->
  Z.min limit (maxPerArtist * Z.of_nat (length (distinctArtists tracks)))
  <= Z.of_nat (length (cappedSelection tracks limit maxPerArtist)).
Proof.
  intros Henough. unfold cappedSelection.
  destruct (diversityLoop_spec limit maxPerArtist tracks [] ∅ countsAgree_empty)
    as [_ [Hfull | Hfill]]; [lia |].
  apply Z.min_le_iff. right.
  apply (enough_tracks_for_artists maxPerArtist (distinctArtists tracks));
    [unfold distinctArtists; apply NoDup_remove_dups |].
  intros a Ha. unfold distinctArtists in Ha. rewrite elem_of_remove_dups in Ha.
  specialize (Hfill a). rewrite artistOccurrences_nil in Hfill.
  pose proof (enoughPerArtist_spec _ _ _ Henough Ha). lia.
Qed.

Lemma applyDiversityFilter_parts (tracks : list UnifiedTrack) (limit maxPerArtist : Z) :
  applyDiversityFilter tracks limit maxPerArtist
  = cappedSelection tracks limit maxPerArtist
    ++ backFill tracks (cappedSelection tracks limit maxPerArtist) limit.
Proof.
  destruct tracks as [| t tracks]; [| reflexivity].
  cbn. unfold backFill, Js.slice_to. cbn [List.filter].
  repeat case_match; by rewrite ?take_nil.
Qed.

(** C2. For every list of tracks, limit [N] and cap [k]: if every main
    artist of the input has at least [k] tracks in it, then among the first
    [min(N, k * distinctArtists)] tracks of
    [applyDiversityFilter(tracks, N, k)] no main artist has more than [k];
    and, whatever the input, the result is the pass under the cap followed
    by the back-fill, which appends tracks only when the pass selected fewer
    than [N]. *)
Theorem applyDiversityFilter_cap (tracks : list UnifiedTrack) (N k : Z) :
  (enoughPerArtist k tracks = true ->
   forall artist,
     artist ∈ mainArtist <$>
       take (Z.to_nat (Z.min N (k * Z.of_nat (length (distinctArtists tracks)))))
            (applyDiversityFilter tracks N k) ->
     artistOccurrences artist
       (take (Z.to_nat (Z.min N (k * Z.of_nat (length (distinctArtists tracks)))))
             (applyDiversityFilter tracks N k))
     <= k) /\
  applyDiversityFilter tracks N k
  = cappedSelection tracks N k ++ backFill tracks (cappedSelection tracks N k) N /\
  (Z.of_nat (length (cappedSelection tracks N k)) < N \/
   backFill tracks (cappedSelection tracks N k) N = []).
Proof.
  split; [| split].
  - intros Henough artist Hin.
    rewrite applyDiversityFilter_parts in Hin |- *.
    pose proof (cappedSelection_length tracks N k Henough) as Hlen.
    rewrite take_app_le in Hin |- * by lia.
    pose proof (artistOccurrences_elem _ _ Hin) as Hone.
    pose proof (artistOccurrences_take artist
      (Z.to_nat (Z.min N (k * Z.of_nat (length (distinctArtists tracks)))))
      (cappedSelection tracks N k)) as Htake.
    pose proof (cappedSelection_cap tracks N k artist) as Hcap.
    lia.
  - apply applyDiversityFilter_parts.
  - unfold backFill.
    destruct (Z.of_nat (length (cappedSelection tracks N k)) <? N) eqn:Hlt;
      [left; lia | right; reflexivity].
Qed.

(** C2 on three tracks by one artist and two by another, [N = 3] and
    [k = 2]: the first three selected are two by the first artist and one by
    the second.  And on one track by one artist and two by another, which is
    not enough for [k = 2]: with [N = 3] and [k = 2] the pass selects all
    three and nothing is back-filled; with [k = 1] it selects two and the
    back-fill appends the third; with [k = 0] it selects none and the
    back-fill appends all three. *)
Lemma applyDiversityFilter_five_tracks :
  enoughPerArtist 2 fiveTracks = true /\
  map track_id
    (take (Z.to_nat (Z.min 3 (2 * Z.of_nat (length (distinctArtists fiveTracks)))))
       (applyDiversityFilter fiveTracks 3 2))
  = ["a1"; "a2"; "b1"] /\
  artistOccurrences "abba"
    (take (Z.to_nat (Z.min 3 (2 * Z.of_nat (length (distinctArtists fiveTracks)))))
       (applyDiversityFilter fiveTracks 3 2))
  <= 2 /\
  enoughPerArtist 2 threeTracks = false /\
  map track_id (cappedSelection threeTracks 3 2) = ["a1"; "b1"; "b2"] /\
  backFill threeTracks (cappedSelection threeTracks 3 2) 3 = [] /\
  map track_id (cappedSelection threeTracks 3 1) = ["a1"; "b1"] /\
  map track_id (backFill threeTracks (cappedSelection threeTracks 3 1) 3)
  = ["b2"] /\
  cappedSelection threeTracks 3 0 = [] /\
  map track_id (backFill threeTracks (cappedSelection threeTracks 3 0) 3)
  = ["a1"; "b1"; "b2"] /\
  applyDiversityFilter threeTracks 3 1
  = cappedSelection threeTracks 3 1
    ++ backFill threeTracks (cappedSelection threeTracks 3 1) 3 /\
  (Z.of_nat (length (cappedSelection threeTracks 3 1)) < 3 \/
   backFill threeTracks (cappedSelection threeTracks 3 1) 3 = []).
Proof.
  split; [reflexivity |]. split; [reflexivity |].
  split.
  { apply (proj1 (applyDiversityFilter_cap fiveTracks 3 2) eq_refl "abba").
    vm_compute. left. }
  split; [reflexivity |]. split; [reflexivity |]. split; [reflexivity |].
  split; [reflexivity |]. split; [reflexivity |]. split; [reflexivity |].
  split; [reflexivity |].
  exact (proj2 (applyDiversityFilter_cap threeTracks 3 1)).
Defined.

(** * Further properties *)

(** ** Key compatibility and seed relevance *)

Lemma keyDistance_sym (pos1 pos2 : Z) : keyDistance pos1 pos2 = keyDistance pos2 pos1.
Proof. unfold keyDistance. replace (pos2 - pos1) with (- (pos1 - pos2)) by lia.
  rewrite Z.abs_opp. reflexivity. Qed.

Lemma keyDistance_range (pos1 pos2 : Z) :
  0 <= pos1 < 12 -> 0 <= pos2 < 12 -> 0 <= keyDistance pos1 pos2 <= 6.
Proof. unfold keyDistance. lia. Qed.

Lemma calculateKeyCompatibility_le_1 (key1 key2 : option string) :
  (calculateKeyCompatibility key1 key2 <= 1)%Q.
Proof.
  unfold calculateKeyCompatibility.
  destruct key1 as [k1 |], key2 as [k2 |]; try (compute; discriminate).
  destruct (negb (Js.truthy k1) || negb (Js.truthy k2));
    [compute; discriminate |].
  destruct (KEY_POSITIONS !! k1) as [pos1 |] eqn:H1; [| compute; discriminate].
  destruct (KEY_POSITIONS !! k2) as [pos2 |] eqn:H2; [| compute; discriminate].
  pose proof (keyDistance_range pos1 pos2 (KEY_POSITIONS_range _ _ H1)
                (KEY_POSITIONS_range _ _ H2)) as [Hd _].
  apply Q.max_lub; [compute; discriminate |].
  assert (0 <= inject_Z (keyDistance pos1 pos2))%Q
    by (change 0%Q with (inject_Z 0); rewrite <- Zle_Qle; exact Hd).
  lra.
Qed.

(** A key that names an inherited member is not the empty string. *)
Lemma Obj_read_truthy (key : string) :
  Obj.read KEY_POSITIONS key <> Obj.Undefined -> Js.truthy key = true.
Proof. destruct key; [intros H; by destruct H | reflexivity]. Qed.

(** X1. Key compatibility does not depend on the order of the two keys.  It
    is 0.5 when a key is missing or empty, and when a key names nothing in
    the table object.  For two keys of the table it lies between 0 and 1,
    and it is 1 when they are at the same position (a key and itself, F# and
    Gb, C and Am).  When one key names an inherited member and the other
    names anything in the table object, it is [NaN]. *)
Theorem calculateKeyCompatibility_symmetric :
  (forall key1 key2,
     Proto.calculateKeyCompatibility key1 key2
     = Proto.calculateKeyCompatibility key2 key1) /\
  (forall key,
     Proto.calculateKeyCompatibility None key = Some 0.5%Q /\
     Proto.calculateKeyCompatibility key None = Some 0.5%Q /\
     Proto.calculateKeyCompatibility (Some "") key = Some 0.5%Q /\
     Proto.calculateKeyCompatibility key (Some "") = Some 0.5%Q) /\
  (forall key1 key2,
     Obj.read KEY_POSITIONS key1 = Obj.Undefined \/
     Obj.read KEY_POSITIONS key2 = Obj.Undefined ->
     Proto.calculateKeyCompatibility (Some key1) (Some key2) = Some 0.5%Q) /\
  (forall key1 key2 pos1 pos2,
     KEY_POSITIONS !! key1 = Some pos1 ->
     KEY_POSITIONS !! key2 = Some pos2 ->
     exists compat,
       Proto.calculateKeyCompatibility (Some key1) (Some key2) = Some compat /\
       (0 <= compat <= 1)%Q /\
       (pos1 = pos2 -> (compat == 1)%Q)) /\
  (forall key1 key2,
     Obj.read KEY_POSITIONS key1 = Obj.Member \/
     Obj.read KEY_POSITIONS key2 = Obj.Member ->
     Obj.read KEY_POSITIONS key1 <> Obj.Undefined ->
     Obj.read KEY_POSITIONS key2 <> Obj.Undefined ->
     Proto.calculateKeyCompatibility (Some key1) (Some key2) = None).
Proof.
  split; [| split; [| split; [| split]]].
  - intros key1 key2. unfold Proto.calculateKeyCompatibility.
    destruct key1 as [k1 |], key2 as [k2 |]; try reflexivity.
    rewrite (orb_comm (negb (Js.truthy k2))).
    destruct (negb (Js.truthy k1) || negb (Js.truthy k2)); [reflexivity |].
    destruct (Obj.read KEY_POSITIONS k1), (Obj.read KEY_POSITIONS k2);
      try reflexivity.
    rewrite keyDistance_sym. reflexivity.
  - intros key. unfold Proto.calculateKeyCompatibility.
    destruct key as [k |]; cbn [Js.truthy negb orb]; repeat split;
      try reflexivity.
    by rewrite orb_true_r.
  - intros key1 key2 H. unfold Proto.calculateKeyCompatibility.
    destruct (negb (Js.truthy key1) || negb (Js.truthy key2)); [reflexivity |].
    destruct H as [-> | ->]; [reflexivity |].
    by destruct (Obj.read KEY_POSITIONS key1).
  - intros key1 key2 pos1 pos2 H1 H2.
    exists (calculateKeyCompatibility (Some key1) (Some key2)).
    split; [| split].
    + unfold Proto.calculateKeyCompatibility, calculateKeyCompatibility, Obj.read.
      rewrite (KEY_POSITIONS_truthy _ _ H1), (KEY_POSITIONS_truthy _ _ H2).
      cbn [negb orb]. rewrite H1, H2. reflexivity.
    + split; [apply calculateKeyCompatibility_nonneg
             | apply calculateKeyCompatibility_le_1].
    + intros <-. unfold calculateKeyCompatibility.
      rewrite (KEY_POSITIONS_truthy _ _ H1), (KEY_POSITIONS_truthy _ _ H2).
      cbn [negb orb]. rewrite H1, H2.
      unfold keyDistance. rewrite Z.sub_diag. reflexivity.
  - intros key1 key2 Hmember Hfound1 Hfound2.
    unfold Proto.calculateKeyCompatibility.
    rewrite (Obj_read_truthy _ Hfound1), (Obj_read_truthy _ Hfound2).
    cbn [negb orb].
    destruct (Obj.read KEY_POSITIONS key1), (Obj.read KEY_POSITIONS key2);
      try reflexivity; try done.
    destruct Hmember; discriminate.
Qed.

Lemma keyBonus_le_10 (seedFeatures trackFeatures : AudioFeatures) :
  keyBonus seedFeatures trackFeatures <= 10.
Proof.
  unfold keyBonus. repeat case_match; try lia.
  unfold Js.round.
  apply Z.le_trans with (Qfloor (10 + (1 # 2))%Q); [| reflexivity].
  apply Qfloor_resp_le.
  pose proof (calculateKeyCompatibility_le_1 (Some s) (Some s0)). lra.
Qed.

(** X2. The audio bonus is at most 40 (12 + 12 + 10 + 6), and the metadata
    points at most 50 for a track seed, 70 for an artist seed and 60 for a
    genre seed; so a track seed never reaches the cap of 100. *)
Theorem calculateSeedRelevance_budget (track : UnifiedTrack) (seed : RadioSeed) :
  audioBonus track seed <= 40 /\
  metadataRelevance track seed
  <= match seed_type seed with
     | seed_track => 50
     | seed_artist => 70
     | seed_genre => 60
     end /\
  calculateSeedRelevance track seed
  <= match seed_type seed with seed_track => 90 | _ => 100 end.
Proof.
  assert (Ha : audioBonus track seed <= 40).
  { unfold audioBonus. destruct (seed_audioFeatures seed) as [sf |]; [| lia].
    cbn zeta.
    pose proof (bpmBonus_range sf (default noFeatures (track_audioFeatures track))).
    pose proof (energyBonus_range sf (default noFeatures (track_audioFeatures track))).
    pose proof (valenceBonus_range sf (default noFeatures (track_audioFeatures track))).
    pose proof (keyBonus_le_10 sf (default noFeatures (track_audioFeatures track))).
    lia. }
  assert (Hm : metadataRelevance track seed
               <= match seed_type seed with
                  | seed_track => 50 | seed_artist => 70 | seed_genre => 60
                  end).
  { unfold metadataRelevance. destruct (seed_type seed); repeat case_match; lia. }
  split; [exact Ha |]. split; [exact Hm |].
  unfold calculateSeedRelevance. cbn zeta.
  destruct (seed_type seed); lia.
Qed.

Lemma bpmRatio_zero_seed (s t : Q) :
  (s == 0)%Q -> Js.leb (bpmRatio s t) 0.3 = false.
Proof.
  intros Hs. unfold bpmRatio, Js.quot.
  rewrite (proj2 (Qeq_bool_iff s 0) Hs).
  destruct (Qabs (s - t) ?= 0)%Q eqn:Hc; try reflexivity.
  exfalso. rewrite <- Qlt_alt in Hc.
  pose proof (Qabs_nonneg (s - t)). lra.
Qed.

Lemma Js_leb_mono (x : Js.number) (c d : Q) :
  (c <= d)%Q -> Js.leb x c = true -> Js.leb x d = true.
Proof.
  destruct x as [q | | |]; cbn; try done.
  rewrite !Qle_bool_iff. intros. lra.
Qed.

(** X3. A seed whose [bpm] is the positive zero earns no BPM bonus, whatever
    the candidate's [bpm]: the ratio is then [Infinity] or [NaN], never a
    small number.  (The zero of the rationals is the positive zero; a
    negative zero, which they do not have, would give [-Infinity].) *)
Theorem bpmBonus_zero_seed_bpm
    (seedFeatures trackFeatures : AudioFeatures) (seedBpm : Q) :
  af_bpm seedFeatures = Some seedBpm ->
  (seedBpm == 0)%Q ->
  bpmBonus seedFeatures trackFeatures = 0.
Proof.
  intros Hs Hz. unfold bpmBonus. rewrite Hs.
  destruct (af_bpm trackFeatures) as [t |]; [| reflexivity].
  pose proof (bpmRatio_zero_seed seedBpm t Hz) as H3.
  destruct (Js.leb (bpmRatio seedBpm t) 0.1) eqn:H1.
  { apply (Js_leb_mono _ 0.1 0.3) in H1; [congruence | lra]. }
  destruct (Js.leb (bpmRatio seedBpm t) 0.2) eqn:H2.
  { apply (Js_leb_mono _ 0.2 0.3) in H2; [congruence | lra]. }
  rewrite H3. reflexivity.
Qed.

(** X3 at a seed and a candidate both at 0 bpm: equal tempos, no bonus. *)
Lemma bpmBonus_zero_against_zero :
  bpmRatio 0 0 = Js.NaN /\ bpmBonus (bpmOnly 0) (bpmOnly 0) = 0.
Proof.
  split; [reflexivity |].
  apply (bpmBonus_zero_seed_bpm (bpmOnly 0) (bpmOnly 0) 0 eq_refl).
  reflexivity.
Defined.

Lemma bpmRatio_positive_seed (s t : Q) :
  (0 < s)%Q -> bpmRatio s t = Js.Finite (Qmin (Qabs (s - t) / s) 1).
Proof.
  intros Hs. unfold bpmRatio, Js.quot.
  destruct (Qeq_bool s 0) eqn:E; [| reflexivity].
  apply Qeq_bool_iff in E. lra.
Qed.

Lemma bpmRatio_closer (s t1 t2 c : Q) :
  (0 < s)%Q ->
  (Qabs (s - t1) <= Qabs (s - t2))%Q ->
  Js.leb (bpmRatio s t2) c = true -> Js.leb (bpmRatio s t1) c = true.
Proof.
  intros Hs Hcloser. rewrite !bpmRatio_positive_seed by exact Hs. cbn.
  rewrite !Qle_bool_iff. intros H2.
  apply Qle_trans with (Qmin (Qabs (s - t2) / s) 1); [| exact H2].
  apply Q.min_le_compat_r. unfold Qdiv.
  apply Qmult_le_compat_r; [exact Hcloser |].
  apply Qlt_le_weak, Qinv_lt_0_compat, Hs.
Qed.

Lemma Qle_bool_closer (a b c : Q) :
  (a <= b)%Q -> Qle_bool b c = true -> Qle_bool a c = true.
Proof. rewrite !Qle_bool_iff. intros. lra. Qed.

(** X4. A candidate closer to the seed never gets a smaller bonus: for a
    seed of positive [bpm], a smaller tempo difference gives at least the
    same BPM bonus, and a smaller energy or valence difference at least the
    same energy or valence bonus. *)
Theorem closer_features_score_no_lower
    (seedFeatures closer farther : AudioFeatures) :
  (forall s t1 t2,
     af_bpm seedFeatures = Some s -> af_bpm closer = Some t1 ->
     af_bpm farther = Some t2 ->
     (0 < s)%Q -> (Qabs (s - t1) <= Qabs (s - t2))%Q ->
     bpmBonus seedFeatures farther <= bpmBonus seedFeatures closer) /\
  (forall s t1 t2,
     af_energy seedFeatures = Some s -> af_energy closer = Some t1 ->
     af_energy farther = Some t2 ->
     (Qabs (s - t1) <= Qabs (s - t2))%Q ->
     energyBonus seedFeatures farther <= energyBonus seedFeatures closer) /\
  (forall s t1 t2,
     af_valence seedFeatures = Some s -> af_valence closer = Some t1 ->
     af_valence farther = Some t2 ->
     (Qabs (s - t1) <= Qabs (s - t2))%Q ->
     valenceBonus seedFeatures farther <= valenceBonus seedFeatures closer).
Proof.
  split; [| split].
  - intros s t1 t2 Hs H1 H2 Hpos Hcloser. unfold bpmBonus. rewrite Hs, H1, H2.
    pose proof (bpmRatio_closer s t1 t2 0.1 Hpos Hcloser).
    pose proof (bpmRatio_closer s t1 t2 0.2 Hpos Hcloser).
    pose proof (bpmRatio_closer s t1 t2 0.3 Hpos Hcloser).
    pose proof (Js_leb_mono (bpmRatio s t1) 0.1 0.2 ltac:(lra)).
    pose proof (Js_leb_mono (bpmRatio s t1) 0.2 0.3 ltac:(lra)).
    destruct (Js.leb (bpmRatio s t2) 0.1), (Js.leb (bpmRatio s t2) 0.2),
      (Js.leb (bpmRatio s t2) 0.3), (Js.leb (bpmRatio s t1) 0.1),
      (Js.leb (bpmRatio s t1) 0.2), (Js.leb (bpmRatio s t1) 0.3);
      try lia; intuition discriminate.
  - intros s t1 t2 Hs H1 H2 Hcloser. unfold energyBonus. rewrite Hs, H1, H2.
    cbn zeta.
    pose proof (Qle_bool_closer _ _ 0.15 Hcloser).
    pose proof (Qle_bool_closer _ _ 0.25 Hcloser).
    pose proof (Qle_bool_closer _ _ 0.35 Hcloser).
    pose proof (Qle_bool_closer (Qabs (s - t1)) (Qabs (s - t1)) 0.15 ltac:(lra)).
    assert (Qle_bool (Qabs (s - t1)) 0.15 = true ->
            Qle_bool (Qabs (s - t1)) 0.25 = true)
      by (rewrite !Qle_bool_iff; intros; lra).
    assert (Qle_bool (Qabs (s - t1)) 0.25 = true ->
            Qle_bool (Qabs (s - t1)) 0.35 = true)
      by (rewrite !Qle_bool_iff; intros; lra).
    destruct (Qle_bool (Qabs (s - t2)) 0.15), (Qle_bool (Qabs (s - t2)) 0.25),
      (Qle_bool (Qabs (s - t2)) 0.35), (Qle_bool (Qabs (s - t1)) 0.15),
      (Qle_bool (Qabs (s - t1)) 0.25), (Qle_bool (Qabs (s - t1)) 0.35);
      try lia; intuition discriminate.
  - intros s t1 t2 Hs H1 H2 Hcloser. unfold valenceBonus. rewrite Hs, H1, H2.
    cbn zeta.
    pose proof (Qle_bool_closer _ _ 0.2 Hcloser).
    pose proof (Qle_bool_closer _ _ 0.35 Hcloser).
    assert (Qle_bool (Qabs (s - t1)) 0.2 = true ->
            Qle_bool (Qabs (s - t1)) 0.35 = true)
      by (rewrite !Qle_bool_iff; intros; lra).
    destruct (Qle_bool (Qabs (s - t2)) 0.2), (Qle_bool (Qabs (s - t2)) 0.35),
      (Qle_bool (Qabs (s - t1)) 0.2), (Qle_bool (Qabs (s - t1)) 0.35);
      try lia; intuition discriminate.
Qed.

(** X4 with a seed at 120 bpm: a candidate at 125 gets at least what one at
    150 gets. *)
Lemma closer_bpm_125_against_150 :
  bpmBonus (bpmOnly 120) (bpmOnly 150) = 4 /\
  bpmBonus (bpmOnly 120) (bpmOnly 125) = 12 /\
  bpmBonus (bpmOnly 120) (bpmOnly 150) <= bpmBonus (bpmOnly 120) (bpmOnly 125).
Proof.
  split; [reflexivity |]. split; [reflexivity |].
  apply (proj1 (closer_features_score_no_lower (bpmOnly 120) (bpmOnly 125)
                  (bpmOnly 150)) 120%Q 125%Q 150%Q eq_refl eq_refl eq_refl).
  - reflexivity.
  - discriminate.
Defined.

(** X5. A candidate with the audio features of the seed itself (a non-zero
    [bpm], an energy, a key of the table and a valence) gets the whole audio
    bonus of 40. *)
Theorem audioBonus_same_features
    (track : UnifiedTrack) (seed : RadioSeed) (features : AudioFeatures)
    (bpm energy valence : Q) (key : string) (pos : Z) :
  seed_audioFeatures seed = Some features ->
  track_audioFeatures track = Some features ->
  af_bpm features = Some bpm -> ~ (bpm == 0)%Q ->
  af_energy features = Some energy ->
  af_key features = Some key -> KEY_POSITIONS !! key = Some pos ->
  af_valence features = Some valence ->
  audioBonus track seed = 40.
Proof.
  intros Hs Ht Hb Hnz He Hk Hpos Hv.
  unfold audioBonus. rewrite Hs, Ht.
  change (default noFeatures (Some features)) with features. cbn zeta.
  assert (Hdiff : forall x : Q, (Qabs (x - x) == 0)%Q).
  { intros x. assert (E : (x - x == 0)%Q) by ring. rewrite E. reflexivity. }
  assert (Hbpm : bpmBonus features features = 12).
  { unfold bpmBonus, bpmRatio, Js.quot. rewrite Hb.
    destruct (Qeq_bool bpm 0) eqn:E; [apply Qeq_bool_iff in E; contradiction |].
    cbn [Js.min_with Js.leb].
    assert (Hle : Qle_bool (Qmin (Qabs (bpm - bpm) / bpm) 1) 0.1 = true).
    { apply Qle_bool_iff. rewrite (Hdiff bpm).
      apply Qle_trans with (0 / bpm)%Q; [apply Q.le_min_l |].
      unfold Qdiv. rewrite Qmult_0_l. discriminate. }
    rewrite Hle. reflexivity. }
  assert (Henergy : energyBonus features features = 12).
  { unfold energyBonus. rewrite He. cbn zeta.
    assert (Hle : Qle_bool (Qabs (energy - energy)) 0.15 = true)
      by (apply Qle_bool_iff; rewrite (Hdiff energy); discriminate).
    rewrite Hle. reflexivity. }
  assert (Hvalence : valenceBonus features features = 6).
  { unfold valenceBonus. rewrite Hv. cbn zeta.
    assert (Hle : Qle_bool (Qabs (valence - valence)) 0.2 = true)
      by (apply Qle_bool_iff; rewrite (Hdiff valence); discriminate).
    rewrite Hle. reflexivity. }
  assert (Hkey : keyBonus features features = 10).
  { unfold keyBonus, calculateKeyCompatibility. rewrite Hk.
    rewrite (KEY_POSITIONS_truthy _ _ Hpos). cbn [negb orb]. rewrite Hpos.
    unfold keyDistance. rewrite Z.sub_diag. reflexivity. }
  rewrite Hbpm, Henergy, Hvalence, Hkey. reflexivity.
Qed.

(** X5 for a seed and a candidate both at 120 bpm, energy 0.8, key F# and
    valence 0.5. *)
Lemma audioBonus_same_features_example :
  audioBonus
    (mkTrack 0 "candidate" "Candidate" [] None None
       (Some (fullFeatures 120 0.8 "F#" 0.5)))
    (mkSeed seed_track "seed" "Seed" None None
       (Some (fullFeatures 120 0.8 "F#" 0.5)))
  = 40.
Proof.
  apply (audioBonus_same_features
           (mkTrack 0 "candidate" "Candidate" [] None None
              (Some (fullFeatures 120 0.8 "F#" 0.5)))
           (mkSeed seed_track "seed" "Seed" None None
              (Some (fullFeatures 120 0.8 "F#" 0.5)))
           (fullFeatures 120 0.8 "F#" 0.5)
           120 0.8 0.5 "F#" 6 eq_refl eq_refl eq_refl).
  - discriminate.
  - reflexivity.
  - reflexivity.
  - reflexivity.
  - reflexivity.
Defined.

(** ** The diversity filter as a selection *)

Lemma filter_sublist {A} (f : A -> bool) (l : list A) :
  List.filter f l `sublist_of` l.
Proof.
  induction l as [| x l IH]; [constructor |].
  cbn. destruct (f x); by constructor.
Qed.

(** The loop only appends, in order, tracks it visits. *)
Lemma diversityLoop_extends (limit maxPerArtist : Z) (tracks : list UnifiedTrack) :
  forall result artistCounts,
  exists selected,
    (diversityLoop limit maxPerArtist tracks result artistCounts).1
    = result ++ selected /\
    selected `sublist_of` tracks.
Proof.
  induction tracks as [| track rest IH]; intros result artistCounts.
  - exists []. cbn. rewrite app_nil_r. split; [reflexivity | constructor].
  - cbn [diversityLoop].
    destruct (Z.of_nat (length result) >=? limit).
    { exists []. cbn. rewrite app_nil_r. split; [reflexivity | apply sublist_nil_l]. }
    cbn zeta.
    destruct (default 0 (artistCounts !! mainArtist track) <? maxPerArtist).
    + destruct (IH (result ++ [track])
                  (<[mainArtist track :=
                       default 0 (artistCounts !! mainArtist track) + 1]>
                     artistCounts)) as (sel & -> & Hsub).
      exists (track :: sel). rewrite <- app_assoc. split; [reflexivity |].
      by constructor.
    + destruct (IH result artistCounts) as (sel & -> & Hsub).
      exists sel. split; [reflexivity |]. by constructor.
Qed.

(** The loop never passes the limit. *)
Lemma diversityLoop_within_limit (limit maxPerArtist : Z) (tracks : list UnifiedTrack) :
  forall result artistCounts,
    Z.of_nat (length result) <= Z.max 0 limit ->
    Z.of_nat (length (diversityLoop limit maxPerArtist tracks result artistCounts).1)
    <= Z.max 0 limit.
Proof.
  induction tracks as [| track rest IH]; intros result artistCounts Hlen.
  - exact Hlen.
  - cbn [diversityLoop].
    destruct (Z.of_nat (length result) >=? limit) eqn:Hfull; [exact Hlen |].
    cbn zeta.
    destruct (default 0 (artistCounts !! mainArtist track) <? maxPerArtist).
    + apply IH. rewrite length_app. cbn. lia.
    + by apply IH.
Qed.

Lemma cappedSelection_sublist (tracks : list UnifiedTrack) (limit maxPerArtist : Z) :
  cappedSelection tracks limit maxPerArtist `sublist_of` tracks.
Proof.
  unfold cappedSelection.
  destruct (diversityLoop_extends limit maxPerArtist tracks [] ∅)
    as (sel & -> & Hsub).
  exact Hsub.
Qed.

Lemma cappedSelection_within_limit (tracks : list UnifiedTrack) (limit maxPerArtist : Z) :
  Z.of_nat (length (cappedSelection tracks limit maxPerArtist)) <= Z.max 0 limit.
Proof. apply diversityLoop_within_limit. cbn. lia. Qed.

Lemma backFill_sublist (tracks result : list UnifiedTrack) (limit : Z) :
  backFill tracks result limit `sublist_of` tracks.
Proof.
  unfold backFill.
  destruct (Z.of_nat (length result) <? limit); [| apply sublist_nil_l].
  cbn zeta. unfold Js.slice_to.
  destruct (limit - Z.of_nat (length result) <? 0);
    (transitivity (List.filter (fun t => negb (includesTrack result t)) tracks);
     [apply sublist_take | apply filter_sublist]).
Qed.

Lemma backFill_length (tracks result : list UnifiedTrack) (limit : Z) :
  Z.of_nat (length (backFill tracks result limit))
  <= Z.max 0 (limit - Z.of_nat (length result)).
Proof.
  unfold backFill, Js.slice_to.
  destruct (Z.of_nat (length result) <? limit) eqn:Hlt; [| cbn; lia].
  cbn zeta.
  destruct (limit - Z.of_nat (length result) <? 0) eqn:Hneg; [lia |].
  rewrite length_take. lia.
Qed.

Lemma includesTrack_elem (result : list UnifiedTrack) (t : UnifiedTrack) :
  t ∈ result -> includesTrack result t = true.
Proof.
  intros Hin. unfold includesTrack. apply existsb_exists.
  exists t. split; [by apply list_elem_of_In | apply Nat.eqb_refl].
Qed.

Lemma backFill_fresh (tracks result : list UnifiedTrack) (limit : Z) (t : UnifiedTrack) :
  t ∈ backFill tracks result limit -> t ∉ result.
Proof.
  intros Hin Hres.
  assert (Hfilter : t ∈ List.filter (fun t => negb (includesTrack result t)) tracks).
  { revert Hin. unfold backFill.
    destruct (Z.of_nat (length result) <? limit);
      [| intros Hin; by apply elem_of_nil in Hin].
    cbn zeta. unfold Js.slice_to.
    destruct (limit - Z.of_nat (length result) <? 0); intros Hin;
      (eapply sublist_subseteq; [apply sublist_take | exact Hin]). }
  apply list_elem_of_In, filter_In in Hfilter as [_ Hnot].
  rewrite (includesTrack_elem _ _ Hres) in Hnot. discriminate.
Qed.

(** X6. [applyDiversityFilter] returns at most [limit] tracks (none for a
    limit of 0 or less), and every track it returns is one of the input. *)
Theorem applyDiversityFilter_within_limit
    (tracks : list UnifiedTrack) (limit maxPerArtist : Z) :
  Z.of_nat (length (applyDiversityFilter tracks limit maxPerArtist))
    <= Z.max 0 limit /\
  (forall t, t ∈ applyDiversityFilter tracks limit maxPerArtist -> t ∈ tracks).
Proof.
  rewrite applyDiversityFilter_parts. split.
  - rewrite length_app.
    pose proof (cappedSelection_within_limit tracks limit maxPerArtist).
    pose proof (backFill_length tracks
                  (cappedSelection tracks limit maxPerArtist) limit).
    lia.
  - intros t Hin. apply elem_of_app in Hin as [Hin | Hin].
    + eapply sublist_subseteq; [apply cappedSelection_sublist | exact Hin].
    + eapply sublist_subseteq; [apply backFill_sublist | exact Hin].
Qed.

(** X7. [applyDiversityFilter] returns no track twice when the input holds
    none twice: the back-fill only takes tracks the capped pass left out. *)
Theorem applyDiversityFilter_NoDup
    (tracks : list UnifiedTrack) (limit maxPerArtist : Z) :
  NoDup tracks ->
  NoDup (applyDiversityFilter tracks limit maxPerArtist).
Proof.
  intros Hnd. rewrite applyDiversityFilter_parts. apply NoDup_app.
  split; [| split].
  - apply (sublist_NoDup _ tracks);
      first [exact Hnd | apply cappedSelection_sublist].
  - intros t Hcap Hfill. by apply backFill_fresh in Hfill.
  - apply (sublist_NoDup _ tracks);
      first [exact Hnd | apply backFill_sublist].
Qed.

Lemma fiveTracks_distinct : NoDup (oid <$> fiveTracks).
Proof.
  apply NoDup_ListNoDup. cbn. repeat constructor; cbn; lia.
Qed.

(** X7 on the five sample tracks with [limit = 5] and a cap of 1: one track
    per artist first, then the three left out, each once. *)
Lemma applyDiversityFilter_NoDup_five_tracks :
  map track_id (applyDiversityFilter fiveTracks 5 1) = ["a1"; "b1"; "a2"; "a3"; "b2"] /\
  NoDup (applyDiversityFilter fiveTracks 5 1).
Proof.
  split; [reflexivity |].
  apply (applyDiversityFilter_NoDup fiveTracks 5 1).
  apply (NoDup_fmap_1 oid), fiveTracks_distinct.
Defined.

Lemma includesTrack_other (selected : list UnifiedTrack) (t : UnifiedTrack) :
  oid t ∉ oid <$> selected -> includesTrack selected t = false.
Proof.
  unfold includesTrack.
  induction selected as [| x selected IH]; intros Hnot; [reflexivity |].
  cbn [existsb]. cbn [fmap list_fmap] in Hnot.
  apply not_elem_of_cons in Hnot as [Hne Hnot].
  rewrite (IH Hnot), orb_false_r. apply Nat.eqb_neq. congruence.
Qed.

(** With distinct objects, what the back-fill can choose from is the input
    less the selected tracks. *)
Lemma remaining_length (selected tracks : list UnifiedTrack) :
  selected `sublist_of` tracks ->
  NoDup (oid <$> tracks) ->
  length (List.filter (fun t => negb (includesTrack selected t)) tracks)
  = (length tracks - length selected)%nat.
Proof.
  induction 1 as [| x l1 l2 Hsub IH | x l1 l2 Hsub IH]; intros Hnd.
  - reflexivity.
  - cbn [fmap list_fmap] in Hnd. apply NoDup_cons in Hnd as [Hx Hnd].
    cbn [List.filter includesTrack existsb]. rewrite Nat.eqb_refl. cbn [orb negb].
    rewrite (filter_ext_in _ (fun t => negb (includesTrack l1 t))).
    + rewrite (IH Hnd). reflexivity.
    + intros t Ht. apply list_elem_of_In in Ht. cbn.
      replace (oid x =? oid t)%nat with false; [reflexivity |].
      symmetry. apply Nat.eqb_neq. intros Heq. apply Hx. rewrite Heq.
      by apply list_elem_of_fmap_2.
  - cbn [fmap list_fmap] in Hnd. apply NoDup_cons in Hnd as [Hx Hnd].
    cbn [List.filter].
    rewrite includesTrack_other.
    + cbn [negb length]. rewrite (IH Hnd).
      pose proof (sublist_length _ _ Hsub). lia.
    + intros Hin. apply Hx.
      eapply sublist_subseteq; [| exact Hin]. by apply fmap_sublist.
Qed.

(** X8. With distinct track objects and a limit of 0 or more,
    [applyDiversityFilter] returns exactly [min(limit, tracks.length)]
    tracks: the artist cap changes which tracks are selected, never how
    many. *)
Theorem applyDiversityFilter_fills_batch
    (tracks : list UnifiedTrack) (limit maxPerArtist : Z) :
  NoDup (oid <$> tracks) ->
  0 <= limit ->
  Z.of_nat (length (applyDiversityFilter tracks limit maxPerArtist))
  = Z.min limit (Z.of_nat (length tracks)).
Proof.
  intros Hnd Hlimit. rewrite applyDiversityFilter_parts, length_app.
  pose proof (cappedSelection_within_limit tracks limit maxPerArtist) as Hcap.
  pose proof (cappedSelection_sublist tracks limit maxPerArtist) as Hsub.
  pose proof (sublist_length _ _ Hsub) as Hlen.
  unfold backFill.
  destruct (Z.of_nat (length (cappedSelection tracks limit maxPerArtist)) <? limit)
    eqn:Hlt.
  - cbn zeta. unfold Js.slice_to.
    destruct (limit - Z.of_nat (length (cappedSelection tracks limit maxPerArtist))
              <? 0) eqn:Hneg; [lia |].
    rewrite length_take, (remaining_length _ _ Hsub Hnd). lia.
  - cbn [length]. lia.
Qed.

(** X8 on the five sample tracks: a cap of 1 still yields 4 tracks for a
    limit of 4, and all 5 for a limit of 10. *)
Lemma applyDiversityFilter_fills_batch_five_tracks :
  map track_id (applyDiversityFilter fiveTracks 4 1) = ["a1"; "b1"; "a2"; "a3"] /\
  Z.of_nat (length (applyDiversityFilter fiveTracks 4 1)) = 4 /\
  Z.of_nat (length (applyDiversityFilter fiveTracks 10 1)) = 5.
Proof.
  split; [reflexivity |]. split.
  - exact (applyDiversityFilter_fills_batch fiveTracks 4 1 fiveTracks_distinct
             ltac:(discriminate)).
  - exact (applyDiversityFilter_fills_batch fiveTracks 10 1 fiveTracks_distinct
             ltac:(discriminate)).
Defined.

(** X9. Whatever the input, the tracks selected before the back-fill hold
    no artist more than [maxPerArtist] times (none at all for a cap of 0 or
    less) and come in the order of the input; and when they already fill
    the limit they are the whole result. *)
Theorem cappedSelection_respects_cap
    (tracks : list UnifiedTrack) (limit maxPerArtist : Z) :
  (forall artist,
     artistOccurrences artist (cappedSelection tracks limit maxPerArtist)
     <= Z.max maxPerArtist 0) /\
  cappedSelection tracks limit maxPerArtist `sublist_of` tracks /\
  ((Z.of_nat (length (cappedSelection tracks limit maxPerArtist)) <? limit) = false ->
   applyDiversityFilter tracks limit maxPerArtist
   = cappedSelection tracks limit maxPerArtist).
Proof.
  split; [| split].
  - intros artist. apply cappedSelection_cap.
  - apply cappedSelection_sublist.
  - intros Hfull. rewrite applyDiversityFilter_parts. unfold backFill.
    rewrite Hfull. apply app_nil_r.
Qed.

(** ** Interleaving the sources *)

Lemma interleaveLoop_acc (fuel : nat) :
  forall discoveryTracks localTracks interleaved,
    interleaveLoop fuel discoveryTracks localTracks interleaved
    = interleaved ++ interleaveLoop fuel discoveryTracks localTracks [].
Proof.
  induction fuel as [| fuel IH]; intros disc loc acc.
  - cbn. by rewrite app_nil_r.
  - destruct disc as [| d disc], loc as [| l loc]; cbn [interleaveLoop].
    + by rewrite app_nil_r.
    + rewrite (IH _ _ (acc ++ _)), (IH _ _ ([] ++ _)). cbn [app].
      by rewrite <- app_assoc.
    + rewrite (IH _ _ (acc ++ _)), (IH _ _ ([] ++ _)). cbn [app].
      by rewrite <- app_assoc.
    + rewrite (IH _ _ (acc ++ _)), (IH _ _ ([] ++ _)). cbn [app].
      by rewrite <- app_assoc.
Qed.

Lemma interleaveLoop_step_length (discoveryTracks localTracks : list UnifiedTrack) :
  (0 < length discoveryTracks + length localTracks ->
   length (drop 2 discoveryTracks) + length (drop 1 localTracks)
   < length discoveryTracks + length localTracks)%nat.
Proof. rewrite !length_drop. lia. Qed.

(** The loop stops because both lists are used up, not for lack of fuel:
    more fuel than the number of tracks changes nothing. *)
Lemma interleaveLoop_fuel (fuel1 : nat) :
  forall fuel2 discoveryTracks localTracks interleaved,
    (length discoveryTracks + length localTracks <= fuel1)%nat ->
    (length discoveryTracks + length localTracks <= fuel2)%nat ->
    interleaveLoop fuel1 discoveryTracks localTracks interleaved
    = interleaveLoop fuel2 discoveryTracks localTracks interleaved.
Proof.
  induction fuel1 as [| fuel1 IH]; intros fuel2 disc loc acc H1 H2.
  - destruct disc, loc; cbn in H1; try lia. by destruct fuel2.
  - destruct fuel2 as [| fuel2].
    + destruct disc, loc; cbn in H2; try lia. reflexivity.
    + pose proof (interleaveLoop_step_length disc loc) as Hstep.
      destruct disc as [| d disc], loc as [| l loc]; cbn [interleaveLoop];
        try reflexivity; apply IH; cbn [length] in *; lia.
Qed.

Lemma interleaveSources_similar_first
    (similarTracks discoveryTracks localTracks : list UnifiedTrack) :
  interleaveSources similarTracks discoveryTracks localTracks
  = similarTracks ++ interleaveSources [] discoveryTracks localTracks.
Proof. unfold interleaveSources. apply interleaveLoop_acc. Qed.

Lemma interleaveLoop_S (fuel : nat)
    (discoveryTracks localTracks interleaved : list UnifiedTrack) :
  (0 < length discoveryTracks + length localTracks)%nat ->
  interleaveLoop (S fuel) discoveryTracks localTracks interleaved
  = interleaveLoop fuel (drop 2 discoveryTracks) (drop 1 localTracks)
      (interleaved ++ take 2 discoveryTracks ++ take 1 localTracks).
Proof.
  intros Hpos.
  destruct discoveryTracks, localTracks; cbn in Hpos; try lia; reflexivity.
Qed.

Lemma interleaveSources_step (discoveryTracks localTracks : list UnifiedTrack) :
  (0 < length discoveryTracks + length localTracks)%nat ->
  interleaveSources [] discoveryTracks localTracks
  = take 2 discoveryTracks ++ take 1 localTracks
    ++ interleaveSources [] (drop 2 discoveryTracks) (drop 1 localTracks).
Proof.
  intros Hpos. unfold interleaveSources.
  pose proof (interleaveLoop_step_length discoveryTracks localTracks Hpos) as Hstep.
  destruct (length discoveryTracks + length localTracks)%nat as [| fuel] eqn:E;
    [lia |].
  rewrite <- E in Hpos.
  rewrite (interleaveLoop_S fuel discoveryTracks localTracks [] Hpos),
    interleaveLoop_acc.
  rewrite (interleaveLoop_fuel fuel
             (length (drop 2 discoveryTracks) + length (drop 1 localTracks)))
    by lia.
  cbn [app]. by rewrite <- app_assoc.
Qed.

(** Induction over the iterations of the loop. *)
Lemma interleave_ind (P : list UnifiedTrack -> list UnifiedTrack -> Prop) :
  P [] [] ->
  (forall disc loc,
     (0 < length disc + length loc)%nat ->
     P (drop 2 disc) (drop 1 loc) -> P disc loc) ->
  forall disc loc, P disc loc.
Proof.
  intros Hnil Hstep disc loc.
  remember (length disc + length loc)%nat as n eqn:Hn.
  revert disc loc Hn.
  induction n as [n IH] using lt_wf_ind; intros disc loc ->.
  destruct (Nat.eq_dec (length disc + length loc)%nat 0%nat) as [Hz | Hnz].
  - destruct disc, loc; cbn in Hz; try lia. exact Hnil.
  - apply Hstep; [lia |].
    apply (IH (length (drop 2 disc) + length (drop 1 loc))%nat);
      [apply interleaveLoop_step_length; lia | reflexivity].
Qed.

Lemma interleaveSources_mixed (discoveryTracks localTracks : list UnifiedTrack) :
  interleaveSources [] discoveryTracks localTracks
    ≡ₚ discoveryTracks ++ localTracks /\
  discoveryTracks `sublist_of` interleaveSources [] discoveryTracks localTracks /\
  localTracks `sublist_of` interleaveSources [] discoveryTracks localTracks.
Proof.
  revert discoveryTracks localTracks.
  apply (interleave_ind (fun disc loc =>
    interleaveSources [] disc loc ≡ₚ disc ++ loc /\
    disc `sublist_of` interleaveSources [] disc loc /\
    loc `sublist_of` interleaveSources [] disc loc)).
  - split; [reflexivity |]. split; constructor.
  - intros disc loc Hpos (Hperm & Hdisc & Hloc).
    rewrite (interleaveSources_step disc loc Hpos).
    split; [| split].
    + rewrite Hperm.
      rewrite <- (take_drop 2 disc) at 3. rewrite <- (take_drop 1 loc) at 3.
      rewrite <- !app_assoc. f_equiv.
      rewrite !app_assoc. f_equiv. apply Permutation_app_comm.
    + rewrite <- (take_drop 2 disc) at 1.
      apply sublist_app; [reflexivity |]. by apply sublist_inserts_l.
    + rewrite <- (take_drop 1 loc) at 1.
      apply sublist_inserts_l. by apply sublist_app.
Qed.

(** X10. The interleaved list starts with all similar tracks; what follows
    holds every discovery and every local track exactly once, the discovery
    tracks in their order and the local tracks in theirs. *)
Theorem interleaveSources_keeps_every_track
    (similarTracks discoveryTracks localTracks : list UnifiedTrack) :
  exists mixed,
    interleaveSources similarTracks discoveryTracks localTracks
    = similarTracks ++ mixed /\
    mixed ≡ₚ discoveryTracks ++ localTracks /\
    discoveryTracks `sublist_of` mixed /\
    localTracks `sublist_of` mixed.
Proof.
  exists (interleaveSources [] discoveryTracks localTracks).
  split; [apply interleaveSources_similar_first |].
  apply interleaveSources_mixed.
Qed.

Lemma interleaveSources_pattern (i : nat) :
  forall discoveryTracks localTracks,
    (2 * i + 1 < length discoveryTracks)%nat ->
    (i < length localTracks)%nat ->
    interleaveSources [] discoveryTracks localTracks !! (3 * i)%nat
      = discoveryTracks !! (2 * i)%nat /\
    interleaveSources [] discoveryTracks localTracks !! (3 * i + 1)%nat
      = discoveryTracks !! (2 * i + 1)%nat /\
    interleaveSources [] discoveryTracks localTracks !! (3 * i + 2)%nat
      = localTracks !! i.
Proof.
  induction i as [| i IH]; intros disc loc Hd Hl;
    destruct disc as [| d1 [| d2 ds]], loc as [| l ls]; cbn in Hd, Hl; try lia;
    rewrite interleaveSources_step by (cbn; lia); cbn [firstn skipn app].
  - repeat split.
  - replace (3 * S i)%nat with (S (S (S (3 * i)))) by lia.
    replace (2 * S i)%nat with (S (S (2 * i))) by lia.
    cbn [lookup list_lookup Nat.add].
    destruct (IH ds ls ltac:(lia) ltac:(lia)) as (H0 & H1 & H2).
    repeat split; assumption.
Qed.

Lemma interleaveSources_no_local :
  forall discoveryTracks localTracks,
    localTracks = [] ->
    interleaveSources [] discoveryTracks localTracks = discoveryTracks.
Proof.
  apply (interleave_ind (fun disc loc =>
           loc = [] -> interleaveSources [] disc loc = disc)).
  - reflexivity.
  - intros disc loc Hpos IH ->. rewrite interleaveSources_step by exact Hpos.
    cbn [firstn skipn app] in *. rewrite (IH eq_refl). apply take_drop.
Qed.

Lemma interleaveSources_no_discovery (localTracks : list UnifiedTrack) :
  interleaveSources [] [] localTracks = localTracks.
Proof.
  induction localTracks as [| l ls IH]; [reflexivity |].
  rewrite interleaveSources_step by (cbn; lia).
  change (take 1 (l :: ls)) with [l]. change (drop 1 (l :: ls)) with ls.
  cbn [firstn skipn app]. by rewrite IH.
Qed.

(** X11. After the similar tracks, as long as two discovery tracks and one
    local track are left, the list goes two discovery tracks, one local
    track: round [i] holds discovery tracks [2i] and [2i+1] and local track
    [i].  Without discovery tracks the local ones follow the similar ones
    directly, and likewise the discovery ones without local tracks. *)
Theorem interleaveSources_two_to_one
    (similarTracks discoveryTracks localTracks : list UnifiedTrack) :
  (forall i : nat,
     (2 * i + 1 < length discoveryTracks)%nat ->
     (i < length localTracks)%nat ->
     interleaveSources similarTracks discoveryTracks localTracks
       !! (length similarTracks + 3 * i)%nat = discoveryTracks !! (2 * i)%nat /\
     interleaveSources similarTracks discoveryTracks localTracks
       !! (length similarTracks + (3 * i + 1))%nat
       = discoveryTracks !! (2 * i + 1)%nat /\
     interleaveSources similarTracks discoveryTracks localTracks
       !! (length similarTracks + (3 * i + 2))%nat = localTracks !! i) /\
  interleaveSources similarTracks [] localTracks = similarTracks ++ localTracks /\
  interleaveSources similarTracks discoveryTracks []
  = similarTracks ++ discoveryTracks.
Proof.
  split; [| split].
  - intros i Hd Hl. rewrite interleaveSources_similar_first.
    rewrite !lookup_app_r by lia.
    replace (length similarTracks + 3 * i - length similarTracks)%nat
      with (3 * i)%nat by lia.
    replace (length similarTracks + (3 * i + 1) - length similarTracks)%nat
      with (3 * i + 1)%nat by lia.
    replace (length similarTracks + (3 * i + 2) - length similarTracks)%nat
      with (3 * i + 2)%nat by lia.
    by apply interleaveSources_pattern.
  - rewrite interleaveSources_similar_first.
    by rewrite interleaveSources_no_discovery.
  - rewrite interleaveSources_similar_first.
    by rewrite interleaveSources_no_local.
Qed.

(** X11 with one similar, five discovery and two local tracks. *)
Lemma interleaveSources_two_to_one_example :
  map track_id
    (interleaveSources [trackBy 0 "s1" "S"]
       [trackBy 1 "d1" "D"; trackBy 2 "d2" "D"; trackBy 3 "d3" "D";
        trackBy 4 "d4" "D"; trackBy 5 "d5" "D"]
       [trackBy 6 "l1" "L"; trackBy 7 "l2" "L"])
  = ["s1"; "d1"; "d2"; "l1"; "d3"; "d4"; "l2"; "d5"] /\
  interleaveSources [trackBy 0 "s1" "S"]
    [trackBy 1 "d1" "D"; trackBy 2 "d2" "D"; trackBy 3 "d3" "D";
     trackBy 4 "d4" "D"; trackBy 5 "d5" "D"]
    [trackBy 6 "l1" "L"; trackBy 7 "l2" "L"] !! 6%nat
  = Some (trackBy 7 "l2" "L").
Proof.
  split; [reflexivity |].
  exact (proj2 (proj2 (proj1 (interleaveSources_two_to_one [trackBy 0 "s1" "S"]
    [trackBy 1 "d1" "D"; trackBy 2 "d2" "D"; trackBy 3 "d3" "D";
     trackBy 4 "d4" "D"; trackBy 5 "d5" "D"]
    [trackBy 6 "l1" "L"; trackBy 7 "l2" "L"]) 1%nat ltac:(cbn; lia) ltac:(cbn; lia)))).
Defined.

(** ** Deduplicating the candidates *)

Section DeduplicateFacts.

Variable normalizeTitle : string -> string.

Lemma existsb_false {A} (f : A -> bool) (l : list A) (x : A) :
  existsb f l = false -> x ∈ l -> f x = false.
Proof.
  intros Hnone Hx. destruct (f x) eqn:E; [| reflexivity].
  rewrite <- Hnone. symmetry. apply existsb_exists.
  exists x. split; [by apply list_elem_of_In | exact E].
Qed.

Lemma keptAgainst_weaken excluded seen seen' seenTitles seenTitles' t :
  seen ⊆ seen' ->
  (forall x, x ∈ seenTitles -> x ∈ seenTitles') ->
  keptAgainst normalizeTitle excluded seen' seenTitles' t ->
  keptAgainst normalizeTitle excluded seen seenTitles t.
Proof.
  intros Hseen Htitles (Hid & Hnew & Hex & Hsim).
  split; [exact Hid |].
  split; [intros Hin; apply Hnew; by apply Hseen |].
  split; [exact Hex |].
  intros x Hx. by apply Hsim, Htitles.
Qed.

Lemma deduplicateLoop_spec (excluded : gset string) (candidates : list UnifiedTrack) :
  forall seen seenTitles,
    deduplicateLoop normalizeTitle excluded candidates seen seenTitles
      `sublist_of` candidates /\
    Forall (keptAgainst normalizeTitle excluded seen seenTitles)
      (deduplicateLoop normalizeTitle excluded candidates seen seenTitles) /\
    NoDup (track_id <$>
      deduplicateLoop normalizeTitle excluded candidates seen seenTitles) /\
    ForallOrdPairs
      (fun earlier later =>
         normalizeTitle (track_title later) <> normalizeTitle (track_title earlier) /\
         areTitlesTooSimilar normalizeTitle (track_title later)
           (normalizeTitle (track_title earlier)) = false)
      (deduplicateLoop normalizeTitle excluded candidates seen seenTitles).
Proof.
  induction candidates as [| track rest IH]; intros seen seenTitles.
  - cbn. repeat split; constructor.
  - cbn [deduplicateLoop].
    destruct (IH seen seenTitles) as (Hsub & Hall & Hnd & Hpairs).
    destruct (negb (Js.truthy (track_id track))) eqn:Hid;
      [repeat split; try assumption; by constructor |].
    destruct (bool_decide (track_id track ∈ seen)) eqn:Hseen;
      [repeat split; try assumption; by constructor |].
    destruct (bool_decide (track_id track ∈ excluded)) eqn:Hex;
      [repeat split; try assumption; by constructor |].
    cbn zeta.
    destruct (existsb _ seenTitles) eqn:Hsim;
      [repeat split; try assumption; by constructor |].
    clear Hsub Hall Hnd Hpairs.
    destruct (IH ({[track_id track]} ∪ seen)
                (seenTitles ++ [normalizeTitle (track_title track)]))
      as (Hsub & Hall & Hnd & Hpairs).
    apply negb_false_iff in Hid.
    apply bool_decide_eq_false in Hseen, Hex.
    split; [by constructor |]. split; [| split].
    + constructor.
      * split; [exact Hid |]. split; [exact Hseen |]. split; [exact Hex |].
        intros existingTitle Hin.
        pose proof (existsb_false _ _ existingTitle Hsim Hin) as E.
        cbn beta in E. apply orb_false_iff in E as [E1 E2].
        split; [by apply String.eqb_neq | exact E1].
      * eapply Forall_impl; [exact Hall |]. intros t Ht.
        eapply keptAgainst_weaken; [| | exact Ht]; [apply union_subseteq_r |].
        intros x Hx. apply elem_of_app. by left.
    + cbn [fmap list_fmap]. apply NoDup_cons. split; [| exact Hnd].
      intros Hin. apply list_elem_of_fmap in Hin as (t & Heq & Ht).
      rewrite Forall_forall in Hall. destruct (Hall t Ht) as (_ & Hnew & _).
      apply Hnew. rewrite <- Heq. apply elem_of_union. left.
      by apply elem_of_singleton.
    + constructor; [| exact Hpairs].
      eapply Forall_impl; [exact Hall |]. intros t (_ & _ & _ & Htitles).
      apply Htitles. apply elem_of_app. right. by apply list_elem_of_singleton.
Qed.

Lemma initialSeenTitles_grows (titles : list string) :
  forall seenTitles x,
    x ∈ seenTitles ->
    x ∈ fold_left
          (fun seenTitles title =>
             let norm := normalizeTitle title in
             if Arr.includes seenTitles norm then seenTitles
             else seenTitles ++ [norm])
          titles seenTitles.
Proof.
  induction titles as [| title titles IH]; intros seenTitles x Hx; [exact Hx |].
  cbn [fold_left]. apply IH. cbn zeta.
  destruct (Arr.includes seenTitles (normalizeTitle title)); [exact Hx |].
  apply elem_of_app. by left.
Qed.

Lemma initialSeenTitles_current (player : PlayerStore) (current : UnifiedTrack) :
  currentTrack player = Some current ->
  Js.truthy (track_title current) = true ->
  normalizeTitle (track_title current) ∈ initialSeenTitles normalizeTitle player.
Proof.
  intros Hc Ht. unfold initialSeenTitles. cbn zeta.
  apply initialSeenTitles_grows. rewrite Hc, Ht.
  by apply list_elem_of_singleton.
Qed.

End DeduplicateFacts.

(** X12. The deduplicated candidates are candidates, in their order; each
    has a non-empty id, no two share an id, and none has the id of a queued
    track, of a track played in the session or of a disliked track. *)
Theorem deduplicate_excludes_known_tracks
    (normalizeTitle : string -> string) (player : PlayerStore)
    (st : SmartQueueState) (dislikedIds : list string)
    (candidates : list UnifiedTrack) :
  deduplicate normalizeTitle player st dislikedIds candidates
    `sublist_of` candidates /\
  NoDup (track_id <$> deduplicate normalizeTitle player st dislikedIds candidates) /\
  (forall t,
     t ∈ deduplicate normalizeTitle player st dislikedIds candidates ->
     Js.truthy (track_id t) = true /\
     (track_id t ∉ track_id <$> queue player) /\
     (track_id t ∉ playedTrackIds (sessionHistory st)) /\
     (track_id t ∉ dislikedIds)).
Proof.
  unfold deduplicate.
  destruct (deduplicateLoop_spec normalizeTitle
              (excludeIds player st dislikedIds) candidates ∅
              (initialSeenTitles normalizeTitle player))
    as (Hsub & Hall & Hnd & _).
  split; [exact Hsub |]. split; [exact Hnd |].
  intros t Ht. rewrite Forall_forall in Hall.
  destruct (Hall t Ht) as (Hid & _ & Hex & _).
  unfold excludeIds in Hex. split; [exact Hid |].
  repeat split; intros Hin; apply Hex;
    rewrite !elem_of_union, !elem_of_list_to_set; tauto.
Qed.

(** X13. No kept candidate has the normalized title of the current track or
    of an earlier kept candidate, and none is too similar, by
    [areTitlesTooSimilar], to either. *)
Theorem deduplicate_drops_similar_titles
    (normalizeTitle : string -> string) (player : PlayerStore)
    (st : SmartQueueState) (dislikedIds : list string)
    (candidates : list UnifiedTrack) :
  ForallOrdPairs
    (fun earlier later =>
       normalizeTitle (track_title later) <> normalizeTitle (track_title earlier) /\
       areTitlesTooSimilar normalizeTitle (track_title later)
         (normalizeTitle (track_title earlier)) = false)
    (deduplicate normalizeTitle player st dislikedIds candidates) /\
  (forall current t,
     currentTrack player = Some current ->
     Js.truthy (track_title current) = true ->
     t ∈ deduplicate normalizeTitle player st dislikedIds candidates ->
     normalizeTitle (track_title t) <> normalizeTitle (track_title current) /\
     areTitlesTooSimilar normalizeTitle (track_title t)
       (normalizeTitle (track_title current)) = false).
Proof.
  unfold deduplicate.
  destruct (deduplicateLoop_spec normalizeTitle
              (excludeIds player st dislikedIds) candidates ∅
              (initialSeenTitles normalizeTitle player))
    as (_ & Hall & _ & Hpairs).
  split; [exact Hpairs |].
  intros current t Hc Htitle Ht. rewrite Forall_forall in Hall.
  destruct (Hall t Ht) as (_ & _ & _ & Htitles).
  apply Htitles. by apply initialSeenTitles_current.
Qed.

(** ** Ranking *)

Section SortFacts.

Variable score : UnifiedTrack -> Q.

Lemma insertByScore_perm (track : UnifiedTrack) (sorted : list UnifiedTrack) :
  insertByScore score track sorted ≡ₚ track :: sorted.
Proof.
  induction sorted as [| next rest IH]; [reflexivity |].
  cbn [insertByScore]. destruct (Qltb (score track) (score next)); [| reflexivity].
  rewrite IH. apply Permutation_swap.
Qed.

Lemma sortByScore_perm (tracks : list UnifiedTrack) :
  sortByScore score tracks ≡ₚ tracks.
Proof.
  induction tracks as [| track rest IH]; [reflexivity |].
  cbn [sortByScore foldr]. rewrite insertByScore_perm. by f_equiv.
Qed.

Lemma insertByScore_sorted (track : UnifiedTrack) (sorted : list UnifiedTrack) :
  StronglySorted (fun a b => (score b <= score a)%Q) sorted ->
  StronglySorted (fun a b => (score b <= score a)%Q)
    (insertByScore score track sorted).
Proof.
  induction 1 as [| next rest Hsorted IH Hnext]; [repeat constructor |].
  cbn [insertByScore].
  destruct (Qltb (score track) (score next)) eqn:Hlt.
  - apply Qltb_lt in Hlt. constructor; [exact IH |].
    rewrite insertByScore_perm. constructor; [by apply Qlt_le_weak | exact Hnext].
  - apply Qltb_ge in Hlt. constructor; [by constructor |].
    constructor; [exact Hlt |].
    eapply Forall_impl; [exact Hnext |]. intros t Ht. cbn beta in *.
    by apply Qle_trans with (score next).
Qed.

(** Among the tracks of one score the insertion keeps the new track first. *)
Lemma insertByScore_stable (v : Q) (track : UnifiedTrack) (sorted : list UnifiedTrack) :
  List.filter (fun t => Qeq_bool (score t) v) (insertByScore score track sorted)
  = List.filter (fun t => Qeq_bool (score t) v) (track :: sorted).
Proof.
  induction sorted as [| next rest IH]; [reflexivity |].
  cbn [insertByScore].
  destruct (Qltb (score track) (score next)) eqn:Hlt; [| reflexivity].
  apply Qltb_lt in Hlt.
  cbn [List.filter] in *. rewrite IH.
  destruct (Qeq_bool (score track) v) eqn:Et, (Qeq_bool (score next) v) eqn:En;
    try reflexivity.
  apply Qeq_bool_iff in Et, En. rewrite Et, En in Hlt.
  by apply Qlt_irrefl in Hlt.
Qed.

End SortFacts.

(** X14. Sorting by score rearranges the candidates without losing or
    repeating any, puts them in descending order of score, and keeps
    candidates of equal score in the order they had. *)
Theorem sortByScore_sorted_stable
    (score : UnifiedTrack -> Q) (tracks : list UnifiedTrack) :
  sortByScore score tracks ≡ₚ tracks /\
  StronglySorted (fun a b => (score b <= score a)%Q) (sortByScore score tracks) /\
  (forall v : Q,
     List.filter (fun t => Qeq_bool (score t) v) (sortByScore score tracks)
     = List.filter (fun t => Qeq_bool (score t) v) tracks).
Proof.
  split; [apply sortByScore_perm |]. split.
  - induction tracks as [| track rest IH]; [constructor |].
    cbn [sortByScore foldr]. by apply insertByScore_sorted.
  - intros v. induction tracks as [| track rest IH]; [reflexivity |].
    cbn [sortByScore foldr]. rewrite insertByScore_stable.
    cbn [List.filter]. fold (sortByScore score rest). by rewrite IH.
Qed.

(** ** [fetchMoreTracks] from the gathered sources on *)

Lemma NoDup_fmap_elem_inj {A B} (f : A -> B) (l : list A) (x y : A) :
  NoDup (f <$> l) -> x ∈ l -> y ∈ l -> f x = f y -> x = y.
Proof.
  induction l as [| z l IH]; intros Hnd Hx Hy Heq;
    [by apply elem_of_nil in Hx |].
  cbn [fmap list_fmap] in Hnd. apply NoDup_cons in Hnd as [Hz Hnd].
  apply elem_of_cons in Hx as [-> | Hx], Hy as [-> | Hy].
  - reflexivity.
  - exfalso. apply Hz. rewrite Heq. by apply list_elem_of_fmap_2.
  - exfalso. apply Hz. rewrite <- Heq. by apply list_elem_of_fmap_2.
  - by apply IH.
Qed.

Lemma applyDiversityFilter_ids_NoDup
    (tracks : list UnifiedTrack) (limit maxPerArtist : Z) :
  NoDup (track_id <$> tracks) ->
  NoDup (track_id <$> applyDiversityFilter tracks limit maxPerArtist).
Proof.
  intros Hnd. rewrite applyDiversityFilter_parts, fmap_app.
  pose proof (cappedSelection_sublist tracks limit maxPerArtist) as Hcap.
  pose proof (backFill_sublist tracks
                (cappedSelection tracks limit maxPerArtist) limit) as Hfill.
  apply NoDup_app. split; [| split].
  - apply (sublist_NoDup _ (track_id <$> tracks));
      first [exact Hnd | by apply fmap_sublist].
  - intros tid Hin1 Hin2.
    apply list_elem_of_fmap in Hin1 as (t1 & -> & Ht1).
    apply list_elem_of_fmap in Hin2 as (t2 & Heq & Ht2).
    assert (t1 = t2) as ->.
    { apply (NoDup_fmap_elem_inj track_id tracks); try assumption.
      - eapply sublist_subseteq; [exact Hcap | exact Ht1].
      - eapply sublist_subseteq; [exact Hfill | exact Ht2]. }
    by apply backFill_fresh in Ht2.
  - apply (sublist_NoDup _ (track_id <$> tracks));
      first [exact Hnd | by apply fmap_sublist].
Qed.

Lemma slice_to_sublist {A} (n : Z) (l : list A) : Js.slice_to n l `sublist_of` l.
Proof. unfold Js.slice_to. destruct (n <? 0); apply sublist_take. Qed.

Lemma slice_to_length {A} (n : Z) (l : list A) :
  0 <= n -> Z.of_nat (length (Js.slice_to n l)) <= n.
Proof.
  intros Hn. unfold Js.slice_to. destruct (n <? 0) eqn:E; [lia |].
  rewrite length_take. lia.
Qed.

(** What [selectTracks] keeps of candidates with distinct ids, for a ranking
    that only rearranges them. *)
Lemma selectTracks_sound
    (rankByScore : SmartQueueState -> list UnifiedTrack -> list UnifiedTrack)
    (st : SmartQueueState) (candidates : list UnifiedTrack) :
  rankByScore st candidates ≡ₚ candidates ->
  NoDup (track_id <$> candidates) ->
  0 <= autoQueueBatchSize (config st) ->
  Z.of_nat (length (selectTracks rankByScore st candidates))
    <= autoQueueBatchSize (config st) /\
  NoDup (track_id <$> selectTracks rankByScore st candidates) /\
  (forall t, t ∈ selectTracks rankByScore st candidates -> t ∈ candidates).
Proof.
  intros Hperm Hnd Hbatch. unfold selectTracks.
  destruct candidates as [| c candidates].
  { cbn. split; [lia |]. split; [constructor |]. done. }
  cbn zeta.
  assert (Hranked : NoDup (track_id <$> rankByScore st (c :: candidates)))
    by (by rewrite Hperm).
  destruct (limitArtistRepetition (config st)).
  - split; [| split].
    + rewrite applyDiversityFilter_parts, length_app.
      pose proof (cappedSelection_within_limit
                    (rankByScore st (c :: candidates))
                    (autoQueueBatchSize (config st))
                    (maxArtistPerBatch (config st))).
      pose proof (backFill_length (rankByScore st (c :: candidates))
                    (cappedSelection (rankByScore st (c :: candidates))
                       (autoQueueBatchSize (config st))
                       (maxArtistPerBatch (config st)))
                    (autoQueueBatchSize (config st))).
      lia.
    + by apply applyDiversityFilter_ids_NoDup.
    + intros t Ht. rewrite <- Hperm.
      rewrite applyDiversityFilter_parts in Ht.
      apply elem_of_app in Ht as [Ht | Ht].
      * eapply sublist_subseteq; [apply cappedSelection_sublist | exact Ht].
      * eapply sublist_subseteq; [apply backFill_sublist | exact Ht].
  - split; [| split].
    + by apply slice_to_length.
    + apply (sublist_NoDup _ (track_id <$> rankByScore st (c :: candidates)));
        first [exact Hranked | apply fmap_sublist, slice_to_sublist].
    + intros t Ht. rewrite <- Hperm.
      eapply sublist_subseteq; [apply slice_to_sublist | exact Ht].
Qed.

(** X15. For a batch size of 0 or more, what [fetchMoreTracks] selects from
    the gathered similar, discovery and local tracks is at most a batch of
    tracks with distinct, non-empty ids, each taken from one of the three
    lists, and none with the id of a queued track, of a track played in the
    session or of a disliked track. *)
Theorem fetchMoreTracksFrom_sound
    (normalizeTitle : string -> string)
    (getHybridScore calculateTrackScore : UnifiedTrack -> Q)
    (isModelLoaded : bool)
    (batchEnhancedScore :
       SmartQueueState -> list UnifiedTrack -> gmap string Q -> gmap string Q)
    (st : SmartQueueState) (player : PlayerStore) (dislikedIds : list string)
    (localTracks discoveryTracks similarTracks : list UnifiedTrack) :
  0 <= autoQueueBatchSize (config st) ->
  Z.of_nat (length
    (fetchMoreTracksFrom normalizeTitle getHybridScore calculateTrackScore
       isModelLoaded batchEnhancedScore st player dislikedIds
       localTracks discoveryTracks similarTracks))
    <= autoQueueBatchSize (config st) /\
  NoDup (track_id <$>
    fetchMoreTracksFrom normalizeTitle getHybridScore calculateTrackScore
      isModelLoaded batchEnhancedScore st player dislikedIds
      localTracks discoveryTracks similarTracks) /\
  (forall t,
     t ∈ fetchMoreTracksFrom normalizeTitle getHybridScore calculateTrackScore
           isModelLoaded batchEnhancedScore st player dislikedIds
           localTracks discoveryTracks similarTracks ->
     (t ∈ similarTracks \/ t ∈ discoveryTracks \/ t ∈ localTracks) /\
     Js.truthy (track_id t) = true /\
     (track_id t ∉ track_id <$> queue player) /\
     (track_id t ∉ playedTrackIds (sessionHistory st)) /\
     (track_id t ∉ dislikedIds)).
Proof.
  intros Hbatch. unfold fetchMoreTracksFrom. cbn zeta.
  destruct (deduplicateLoop_spec normalizeTitle
              (excludeIds player st dislikedIds)
              (interleaveSources similarTracks discoveryTracks localTracks) ∅
              (initialSeenTitles normalizeTitle player))
    as (Hsub & Hall & Hnd & _).
  fold (deduplicate normalizeTitle player st dislikedIds
          (interleaveSources similarTracks discoveryTracks localTracks))
    in Hsub, Hall, Hnd.
  destruct (selectTracks_sound
              (rankCandidates getHybridScore calculateTrackScore isModelLoaded
                 batchEnhancedScore)
              st
              (deduplicate normalizeTitle player st dislikedIds
                 (interleaveSources similarTracks discoveryTracks localTracks))
              ltac:(apply sortByScore_perm) Hnd Hbatch)
    as (Hlen & Hids & Hfrom).
  split; [exact Hlen |]. split; [exact Hids |].
  intros t Ht. specialize (Hfrom t Ht).
  rewrite Forall_forall in Hall. destruct (Hall t Hfrom) as (Hid & _ & Hex & _).
  split.
  - apply (sublist_subseteq _ _ Hsub) in Hfrom.
    rewrite interleaveSources_similar_first in Hfrom.
    apply elem_of_app in Hfrom as [Hfrom | Hfrom]; [by left | right].
    destruct (interleaveSources_mixed discoveryTracks localTracks) as (Hperm & _).
    rewrite Hperm in Hfrom. by apply elem_of_app in Hfrom.
  - split; [exact Hid |]. unfold excludeIds in Hex.
    repeat split; intros Hin; apply Hex;
      rewrite !elem_of_union, !elem_of_list_to_set; tauto.
Qed.

(** X15 on a sample: of seven gathered tracks, the queued one, its
    upper-case namesake, the played one and the disliked one are dropped. *)
Lemma fetchMoreTracksFrom_sample :
  map track_id
    (interleaveSources sampleSimilar sampleDiscovery sampleLocal)
  = ["s1"; "q1"; "d2"; "p1"; "x1"; "d4"; "l2"] /\
  map track_id
    (fetchMoreTracksFrom lowerCaseOnly (fun _ => 50%Q) (fun _ => 50%Q) false
       (fun _ _ _ => ∅) afterPlayedSong playingQueuedSong ["x1"]
       sampleLocal sampleDiscovery sampleSimilar)
  = ["s1"; "d4"; "l2"] /\
  Z.of_nat (length
    (fetchMoreTracksFrom lowerCaseOnly (fun _ => 50%Q) (fun _ => 50%Q) false
       (fun _ _ _ => ∅) afterPlayedSong playingQueuedSong ["x1"]
       sampleLocal sampleDiscovery sampleSimilar))
  <= autoQueueBatchSize (config afterPlayedSong).
Proof.
  split; [reflexivity |]. split; [vm_compute; reflexivity |].
  apply (fetchMoreTracksFrom_sound lowerCaseOnly (fun _ => 50%Q) (fun _ => 50%Q)
           false (fun _ _ _ => ∅) afterPlayedSong playingQueuedSong ["x1"]
           sampleLocal sampleDiscovery sampleSimilar).
  discriminate.
Defined.

(** ** Queue sources *)

Lemma sourceFromCurrent_Some (track current : UnifiedTrack) (now : Z)
    (source : QueueSource) :
  sourceFromCurrent track current now = Some source ->
  source_timestamp source = now /\
  source_seedTrackId source = Some (track_id current) /\
  (source_type source = src_artist \/ source_type source = src_album \/
   source_type source = src_genre).
Proof.
  unfold sourceFromCurrent.
  repeat case_match; intros [= <-]; cbn; tauto.
Qed.

Section SourceFacts.

Variable isLiked : string -> bool.

Lemma determineTrackSource_timestamp (st : SmartQueueState) (track : UnifiedTrack)
    (current : option UnifiedTrack) (now : Z) :
  source_timestamp (determineTrackSource isLiked st track current now) = now.
Proof.
  unfold determineTrackSource.
  destruct (QueueMode_eqb (mode st) radio), (radioSeed st) as [seed |];
    try (destruct (seed_type seed); repeat case_match; reflexivity);
    (destruct (isLiked (track_id track)); [reflexivity |];
     destruct current as [cur |]; [| reflexivity];
     destruct (sourceFromCurrent track cur now) as [source |] eqn:E;
     [| reflexivity];
     cbn; by apply sourceFromCurrent_Some in E as (? & _)).
Qed.

End SourceFacts.

(** X16. [determineTrackSource] always stamps the source with the current
    time and only ever gives one of seven of the fourteen source types:
    artist, album, genre, similar, radio, liked or ml.  In radio mode with a
    seed the type is artist, genre, similar or radio and the context is the
    seed's name; otherwise a liked track is always labelled liked. *)
Theorem determineTrackSource_types
    (isLiked : string -> bool) (st : SmartQueueState) (track : UnifiedTrack)
    (current : option UnifiedTrack) (now : Z) :
  source_timestamp (determineTrackSource isLiked st track current now) = now /\
  In (source_type (determineTrackSource isLiked st track current now))
     [src_artist; src_album; src_genre; src_similar; src_radio; src_liked; src_ml] /\
  (forall seed,
     mode st = radio -> radioSeed st = Some seed ->
     In (source_type (determineTrackSource isLiked st track current now))
        [src_artist; src_genre; src_similar; src_radio] /\
     source_context (determineTrackSource isLiked st track current now)
       = Some (seed_name seed)) /\
  (mode st <> radio \/ radioSeed st = None ->
   isLiked (track_id track) = true ->
   determineTrackSource isLiked st track current now
   = mkSource src_liked "From your Likes" None None now None).
Proof.
  split; [apply determineTrackSource_timestamp |]. split; [| split].
  - unfold determineTrackSource.
    destruct (QueueMode_eqb (mode st) radio), (radioSeed st) as [seed |];
      try (destruct (seed_type seed); repeat case_match; cbn; tauto);
      (destruct (isLiked (track_id track)); [cbn; tauto |];
       destruct current as [cur |]; [| cbn; tauto];
       destruct (sourceFromCurrent track cur now) as [source |] eqn:E;
       [| cbn; tauto];
       apply sourceFromCurrent_Some in E as (_ & _ & [E | [E | E]]);
       cbn; rewrite E; tauto).
  - intros seed Hmode Hseed. unfold determineTrackSource.
    rewrite Hmode, Hseed. cbn [QueueMode_eqb].
    repeat case_match; cbn; tauto.
  - intros Hnot Hliked. unfold determineTrackSource. rewrite Hliked.
    destruct Hnot as [Hmode | ->].
    + apply QueueMode_eqb_neq in Hmode. rewrite Hmode. reflexivity.
    + by destruct (QueueMode_eqb (mode st) radio).
Qed.

(** X16 in genre radio: every track is labelled with the genre. *)
Lemma determineTrackSource_genre_radio :
  determineTrackSource (fun _ => true)
    (radioState (mkSeed seed_genre "rock" "Rock" None None None) 0)
    (trackBy 1 "t1" "Abba") None 77
  = mkSource src_genre "Rock radio" (Some "Rock") None 77 None /\
  source_context
    (determineTrackSource (fun _ => true)
       (radioState (mkSeed seed_genre "rock" "Rock" None None None) 0)
       (trackBy 1 "t1" "Abba") None 77) = Some "Rock".
Proof.
  split; [reflexivity |].
  apply (proj1 (proj2 (proj2 (determineTrackSource_types (fun _ => true)
    (radioState (mkSeed seed_genre "rock" "Rock" None None None) 0)
    (trackBy 1 "t1" "Abba") None 77)))
    (mkSeed seed_genre "rock" "Rock" None None None) eq_refl eq_refl).
Defined.

(** ** What a replenishment leaves behind *)

Section ReplenishFacts.

Variable isLiked : string -> bool.
Variable addToQueue : PlayerStore -> UnifiedTrack -> PlayerStore.

Lemma newSourcesOf_snoc st player later (newTracks : list UnifiedTrack) track :
  newSourcesOf isLiked st player later (newTracks ++ [track])
  = Obj.assign (newSourcesOf isLiked st player later newTracks) (track_id track)
      (determineTrackSource isLiked st track (currentTrack player) later).
Proof. unfold newSourcesOf. by rewrite fold_left_app. Qed.

Lemma newSourcesOf_lookup st player later (newTracks : list UnifiedTrack) tid :
  (tid ∉ track_id <$> newTracks \/ tid = "__proto__" ->
   newSourcesOf isLiked st player later newTracks !! tid = None) /\
  (tid ∈ track_id <$> newTracks ->
   tid <> "__proto__" ->
   exists track,
     track ∈ newTracks /\ track_id track = tid /\
     newSourcesOf isLiked st player later newTracks !! tid
     = Some (determineTrackSource isLiked st track (currentTrack player) later)).
Proof.
  induction newTracks as [| last front IH] using rev_ind.
  - split; [reflexivity |]. intros H. by apply elem_of_nil in H.
  - rewrite newSourcesOf_snoc, fmap_app. cbn [fmap list_fmap].
    destruct IH as [IHnone IHsome].
    unfold Obj.assign.
    destruct (String.eqb (track_id last) "__proto__") eqn:Hproto.
    + apply String.eqb_eq in Hproto. split.
      * intros [Hnot | Heq]; apply IHnone; [left | by right].
        intros Hin. apply Hnot. apply elem_of_app. by left.
      * intros Hin Hne. apply elem_of_app in Hin as [Hin | Hin].
        -- destruct (IHsome Hin Hne) as (track & Ht & Hid & Hl).
           exists track. split; [apply elem_of_app; by left |]. by split.
        -- apply list_elem_of_singleton in Hin. congruence.
    + apply String.eqb_neq in Hproto.
      destruct (decide (track_id last = tid)) as [Heq | Hne].
      * split.
        -- intros [Hnot | Hp]; [| congruence].
           exfalso. apply Hnot. apply elem_of_app. right.
           by apply list_elem_of_singleton.
        -- intros _ _. exists last. split; [apply elem_of_app; right;
             by apply list_elem_of_singleton |].
           split; [exact Heq |]. rewrite <- Heq. apply lookup_insert_eq.
      * rewrite lookup_insert_ne by exact Hne. split.
        -- intros [Hnot | Hp]; apply IHnone; [left | by right].
           intros Hin. apply Hnot. apply elem_of_app. by left.
        -- intros Hin Hnp. apply elem_of_app in Hin as [Hin | Hin].
           ++ destruct (IHsome Hin Hnp) as (track & Ht & Hid & Hl).
              exists track. split; [apply elem_of_app; by left |]. by split.
           ++ apply list_elem_of_singleton in Hin. congruence.
Qed.

Lemma checkAndReplenish_started st player now outcome later :
  fetchStarted (checkAndReplenish isLiked addToQueue st player now outcome later)
    = true ->
  checkAndReplenish isLiked addToQueue st player now outcome later
  = match outcome with
    | Resolved (first :: rest) =>
        mkReplenished
          (fetchSucceeded st later (newSourcesOf isLiked st player later (first :: rest)))
          (fold_left addToQueue (first :: rest) player) true
    | Resolved [] =>
        mkReplenished (fetchFailed st later "No matching tracks found") player true
    | Rejected error =>
        mkReplenished
          (fetchFailed st later (default "Failed to fetch tracks" error))
          player true
    end.
Proof.
  unfold checkAndReplenish. cbn zeta.
  repeat case_match; cbn [fetchStarted]; intros; try done; subst; done.
Qed.

End ReplenishFacts.



(** X18. Whatever happens, [checkAndReplenish] leaves the mode, the radio
    seed and its counter, the session history, both configurations and the
    pending candidates as they were. *)
Theorem checkAndReplenish_frame
    (isLiked : string -> bool)
    (addToQueue : PlayerStore -> UnifiedTrack -> PlayerStore)
    (st : SmartQueueState) (player : PlayerStore)
    (now : Z) (outcome : FetchOutcome) (later : Z) :
  mode (nextState (checkAndReplenish isLiked addToQueue st player now outcome later))
    = mode st /\
  radioSeed
    (nextState (checkAndReplenish isLiked addToQueue st player now outcome later))
    = radioSeed st /\
  radioTracksPlayed
    (nextState (checkAndReplenish isLiked addToQueue st player now outcome later))
    = radioTracksPlayed st /\
  sessionHistory
    (nextState (checkAndReplenish isLiked addToQueue st player now outcome later))
    = sessionHistory st /\
  config (nextState (checkAndReplenish isLiked addToQueue st player now outcome later))
    = config st /\
  radioConfig
    (nextState (checkAndReplenish isLiked addToQueue st player now outcome later))
    = radioConfig st /\
  pendingCandidates
    (nextState (checkAndReplenish isLiked addToQueue st player now outcome later))
    = pendingCandidates st.
Proof.
  unfold checkAndReplenish. cbn zeta.
  repeat case_match; repeat split.
Qed.

(** X19. When [checkAndReplenish] has fetched tracks, every one of them
    whose id is not ['__proto__'] has a queue source afterwards, stamped
    with the time after the fetch; the sources recorded for all other ids
    are unchanged, and so is the one for ['__proto__'], for which the
    assignment [newSources[track.id] = source] adds no entry. *)
Theorem checkAndReplenish_records_sources
    (isLiked : string -> bool)
    (addToQueue : PlayerStore -> UnifiedTrack -> PlayerStore)
    (st : SmartQueueState) (player : PlayerStore)
    (now : Z) (newTracks : list UnifiedTrack) (later : Z) :
  fetchStarted
    (checkAndReplenish isLiked addToQueue st player now (Resolved newTracks) later)
    = true ->
  (forall track,
     track ∈ newTracks ->
     track_id track <> "__proto__" ->
     exists source,
       queueSources
         (nextState (checkAndReplenish isLiked addToQueue st player now
                       (Resolved newTracks) later))
         !! track_id track = Some source /\
       source_timestamp source = later) /\
  (forall tid,
     tid ∉ track_id <$> newTracks \/ tid = "__proto__" ->
     queueSources
       (nextState (checkAndReplenish isLiked addToQueue st player now
                     (Resolved newTracks) later))
       !! tid = queueSources st !! tid).
Proof.
  intros Hstarted.
  rewrite (checkAndReplenish_started isLiked addToQueue _ _ _ _ _ Hstarted).
  destruct newTracks as [| first rest].
  { split; [intros track H; by apply elem_of_nil in H | reflexivity]. }
  cbn [nextState fetchSucceeded queueSources]. split.
  - intros track Hin Hne.
    destruct (proj2 (newSourcesOf_lookup isLiked st player later (first :: rest)
                       (track_id track))
                ltac:(by apply list_elem_of_fmap_2) Hne)
      as (track' & _ & _ & Hlookup).
    eexists. split; [by apply lookup_union_Some_l |].
    apply determineTrackSource_timestamp.
  - intros tid Hnot. apply lookup_union_r.
    by apply (newSourcesOf_lookup isLiked st player later (first :: rest) tid).
Qed.

(** X19 for two fetched tracks in auto-queue mode, the second with the id
    ['__proto__']: the first gets a source, the second none. *)
Lemma checkAndReplenish_records_one_source :
  queueSources
    (nextState
       (checkAndReplenish (fun _ => false) appendToQueue (autoQueueState 0)
          (playerWith 2) 60000
          (Resolved [trackBy 7 "new" "New"; trackBy 8 "__proto__" "Odd"]) 61000))
    !! "new"
  = Some (mkSource src_ml "Recommended for you" None None 61000 None) /\
  queueSources
    (nextState
       (checkAndReplenish (fun _ => false) appendToQueue (autoQueueState 0)
          (playerWith 2) 60000
          (Resolved [trackBy 7 "new" "New"; trackBy 8 "__proto__" "Odd"]) 61000))
    !! "__proto__"
  = queueSources (autoQueueState 0) !! "__proto__" /\
  queueSources (autoQueueState 0) !! "__proto__" = None.
Proof.
  split; [vm_compute; reflexivity |].
  split; [| reflexivity].
  apply (proj2 (checkAndReplenish_records_sources (fun _ => false) appendToQueue
                  (autoQueueState 0) (playerWith 2) 60000
                  [trackBy 7 "new" "New"; trackBy 8 "__proto__" "Odd"] 61000
                  eq_refl)).
  by right.
Defined.

(** ** Mode actions *)

(** X20. [toggleAutoQueue] always flips the status that [useAutoQueueStatus]
    shows, leaves the mode and the enabled flag in agreement (auto-queue
    mode exactly when enabled), and so never leaves the store in radio
    mode. *)
Theorem toggleAutoQueue_flips (st : SmartQueueState) :
  autoQueueIsEnabled (toggleAutoQueue st) = negb (autoQueueIsEnabled st) /\
  autoQueueEnabled (config (toggleAutoQueue st))
    = QueueMode_eqb (mode (toggleAutoQueue st)) auto_queue /\
  QueueMode_eqb (mode (toggleAutoQueue st)) radio = false /\
  radioSeed (toggleAutoQueue st) = radioSeed st.
Proof.
  unfold toggleAutoQueue, autoQueueIsEnabled.
  destruct (autoQueueEnabled (config st) || QueueMode_eqb (mode st) auto_queue);
    repeat split.
Qed.

(** X21. After [stopRadio], [disableAutoQueue] or [setMode('manual')] no
    call of [checkAndReplenish] fetches, whatever the queue and the clock.
    After [enableAutoQueue] a call fetches as soon as no fetch is in
    flight, 5 seconds have passed since the last one and the queue is down
    to the threshold. *)
Theorem replenishment_follows_mode
    (isLiked : string -> bool)
    (addToQueue : PlayerStore -> UnifiedTrack -> PlayerStore)
    (st : SmartQueueState) (player : PlayerStore)
    (now : Z) (outcome : FetchOutcome) (later : Z) :
  fetchStarted
    (checkAndReplenish isLiked addToQueue (stopRadio st) player now outcome later)
    = false /\
  fetchStarted
    (checkAndReplenish isLiked addToQueue (disableAutoQueue st) player now
       outcome later) = false /\
  fetchStarted
    (checkAndReplenish isLiked addToQueue (setMode manual st) player now
       outcome later) = false /\
  (isAutoQueueFetching st = false ->
   5000 <= now - lastAutoQueueFetch st ->
   Z.of_nat (length (queue player)) - queueIndex player - 1
     <= autoQueueThreshold (config st) ->
   fetchStarted
     (checkAndReplenish isLiked addToQueue (enableAutoQueue st) player now
        outcome later) = true).
Proof.
  split; [reflexivity |]. split; [reflexivity |]. split; [reflexivity |].
  intros Hidle Hrate Hlow. unfold checkAndReplenish. cbn zeta.
  cbn [enableAutoQueue mode config withAutoQueueEnabled autoQueueEnabled
       isAutoQueueFetching lastAutoQueueFetch autoQueueThreshold
       QueueMode_eqb negb andb].
  rewrite Hidle.
  replace (now - lastAutoQueueFetch st <? MIN_FETCH_INTERVAL_MS) with false
    by (symmetry; apply Z.ltb_ge; unfold MIN_FETCH_INTERVAL_MS; lia).
  replace (Z.of_nat (length (queue player)) - queueIndex player - 1
           <=? autoQueueThreshold (config st)) with true
    by (symmetry; apply Z.leb_le; lia).
  by destruct outcome as [[| first rest] | error].
Qed.

(** X21 from the fresh store: enabling auto-queue with one track left lets
    the next call fetch. *)
Lemma replenishment_after_enabling :
  fetchStarted
    (checkAndReplenish (fun _ => false) appendToQueue
       (enableAutoQueue (initialState 0)) (playerWith 2) 60000
       (Resolved []) 60500) = true.
Proof.
  apply (proj2 (proj2 (proj2 (replenishment_follows_mode (fun _ => false)
    appendToQueue (initialState 0) (playerWith 2) 60000 (Resolved []) 60500))));
    [reflexivity | discriminate | discriminate].
Defined.

(** ** Starting a radio *)

(** X22. [startRadio] puts the store in radio mode with the error cleared
    and the failure counter at zero; the stored seed is the given one, with
    fetched audio features added only to a track seed that had none; the
    session restarts at the current time and holds the first fetched track
    alone, counted as one radio track, or nothing when no track was
    fetched. *)
Theorem startRadio_resets_session
    (setQueue : PlayerStore -> list UnifiedTrack -> Z -> PlayerStore)
    (play : PlayerStore -> UnifiedTrack -> PlayerStore)
    (st : SmartQueueState) (player : PlayerStore) (seed : RadioSeed)
    (fetched : option AudioFeatures) (now : Z)
    (availableTracks tracks : list UnifiedTrack) :
  mode (startRadio setQueue play st player seed fetched now availableTracks tracks).1
    = radio /\
  autoQueueError
    (startRadio setQueue play st player seed fetched now availableTracks tracks).1
    = None /\
  consecutiveFailures
    (startRadio setQueue play st player seed fetched now availableTracks tracks).1
    = 0 /\
  radioSeed
    (startRadio setQueue play st player seed fetched now availableTracks tracks).1
    = Some (enrichSeed seed fetched) /\
  (seed_type (enrichSeed seed fetched), seed_id (enrichSeed seed fetched),
   seed_name (enrichSeed seed fetched), seed_genres (enrichSeed seed fetched),
   seed_artistIds (enrichSeed seed fetched))
  = (seed_type seed, seed_id seed, seed_name seed, seed_genres seed,
     seed_artistIds seed) /\
  seed_audioFeatures (enrichSeed seed fetched)
  = match seed_audioFeatures seed, seed_type seed with
    | None, seed_track => fetched
    | given, _ => given
    end /\
  sessionStartTime (sessionHistory
    (startRadio setQueue play st player seed fetched now availableTracks tracks).1)
    = now /\
  playedTrackIds (sessionHistory
    (startRadio setQueue play st player seed fetched now availableTracks tracks).1)
    = match availableTracks with
      | [] => []
      | _ :: _ => track_id <$> take 1 tracks
      end /\
  radioTracksPlayed
    (startRadio setQueue play st player seed fetched now availableTracks tracks).1
    = match availableTracks with
      | [] => 0
      | _ :: _ => Z.of_nat (length (take 1 tracks))
      end.
Proof.
  unfold startRadio. cbn zeta.
  assert (Hfields :
    (seed_type (enrichSeed seed fetched), seed_id (enrichSeed seed fetched),
     seed_name (enrichSeed seed fetched), seed_genres (enrichSeed seed fetched),
     seed_artistIds (enrichSeed seed fetched))
    = (seed_type seed, seed_id seed, seed_name seed, seed_genres seed,
       seed_artistIds seed) /\
    seed_audioFeatures (enrichSeed seed fetched)
    = match seed_audioFeatures seed, seed_type seed with
      | None, seed_track => fetched
      | given, _ => given
      end).
  { unfold enrichSeed.
    destruct (seed_type seed) eqn:Et, (seed_audioFeatures seed) eqn:Ea,
      fetched; cbn; rewrite ?Et, ?Ea; split; reflexivity. }
  destruct Hfields as [Hsame Hfeatures].
  destruct availableTracks as [| a avail], tracks as [| first rest];
    cbn; repeat split; assumption.
Qed.

(** ** Playing and fetching *)

Lemma slice_last_keeps_newest {A} (n : nat) (l : list A) (x : A) :
  x ∈ Js.slice_last (S n) (l ++ [x]).
Proof.
  unfold Js.slice_last. rewrite length_app. cbn [length].
  rewrite drop_app_le by lia.
  apply elem_of_app. right. by apply list_elem_of_singleton.
Qed.

Lemma recordTrackPlayed_in_history (track : UnifiedTrack) (st : SmartQueueState) :
  track_id track ∈ playedTrackIds (sessionHistory (recordTrackPlayed track st)).
Proof. cbn. apply (slice_last_keeps_newest 199). Qed.

(** X23. A track that has just been recorded as played is in the session
    history, and the next [fetchMoreTracks] selects no track with its id,
    whatever the sources return. *)
Theorem played_track_is_not_fetched_again
    (normalizeTitle : string -> string)
    (getHybridScore calculateTrackScore : UnifiedTrack -> Q)
    (isModelLoaded : bool)
    (batchEnhancedScore :
       SmartQueueState -> list UnifiedTrack -> gmap string Q -> gmap string Q)
    (st : SmartQueueState) (player : PlayerStore) (dislikedIds : list string)
    (localTracks discoveryTracks similarTracks : list UnifiedTrack)
    (played : UnifiedTrack) :
  track_id played
    ∈ playedTrackIds (sessionHistory (recordTrackPlayed played st)) /\
  Forall (fun t => negb (String.eqb (track_id t) (track_id played)) = true)
    (fetchMoreTracksFrom normalizeTitle getHybridScore calculateTrackScore
       isModelLoaded batchEnhancedScore (recordTrackPlayed played st) player
       dislikedIds localTracks discoveryTracks similarTracks).
Proof.
  split; [apply recordTrackPlayed_in_history |].
  apply Forall_forall. intros t Ht.
  apply negb_true_iff, String.eqb_neq. intros Heq.
  unfold fetchMoreTracksFrom in Ht. cbn zeta in Ht.
  destruct (deduplicateLoop_spec normalizeTitle
              (excludeIds player (recordTrackPlayed played st) dislikedIds)
              (interleaveSources similarTracks discoveryTracks localTracks) ∅
              (initialSeenTitles normalizeTitle player))
    as (_ & Hall & _ & _).
  fold (deduplicate normalizeTitle player (recordTrackPlayed played st)
          dislikedIds
          (interleaveSources similarTracks discoveryTracks localTracks))
    in Hall.
  assert (Hfrom : t ∈ deduplicate normalizeTitle player
                        (recordTrackPlayed played st) dislikedIds
                        (interleaveSources similarTracks discoveryTracks
                           localTracks)).
  { revert Ht. unfold selectTracks.
    destruct (deduplicate _ _ _ _ _) as [| c candidates] eqn:E;
      [intros H; by apply elem_of_nil in H |].
    cbn zeta. intros Ht.
    rewrite <- (sortByScore_perm
                  (finalScore
                     (batchEnhancedScore (recordTrackPlayed played st)
                        (c :: candidates)
                        (baseScores getHybridScore calculateTrackScore
                           isModelLoaded (recordTrackPlayed played st)
                           (c :: candidates)))
                     (baseScores getHybridScore calculateTrackScore
                        isModelLoaded (recordTrackPlayed played st)
                        (c :: candidates)))
                  (c :: candidates)).
    fold (rankCandidates getHybridScore calculateTrackScore isModelLoaded
            batchEnhancedScore (recordTrackPlayed played st) (c :: candidates)).
    destruct (limitArtistRepetition (config (recordTrackPlayed played st))).
    - rewrite applyDiversityFilter_parts in Ht.
      apply elem_of_app in Ht as [Ht | Ht].
      + eapply sublist_subseteq; [apply cappedSelection_sublist | exact Ht].
      + eapply sublist_subseteq; [apply backFill_sublist | exact Ht].
    - eapply sublist_subseteq; [apply slice_to_sublist | exact Ht]. }
  rewrite Forall_forall in Hall. destruct (Hall t Hfrom) as (_ & _ & Hex & _).
  apply Hex. unfold excludeIds.
  rewrite !elem_of_union, !elem_of_list_to_set. left. right.
  rewrite Heq. apply recordTrackPlayed_in_history.
Qed.

(** ** Drift over a radio session *)

Lemma recordTrackPlayed_radio_count (tracks : list UnifiedTrack) :
  forall st,
    mode st = radio ->
    mode (fold_left (fun s t => recordTrackPlayed t s) tracks st) = radio /\
    radioConfig (fold_left (fun s t => recordTrackPlayed t s) tracks st)
      = radioConfig st /\
    radioTracksPlayed (fold_left (fun s t => recordTrackPlayed t s) tracks st)
      = radioTracksPlayed st + Z.of_nat (length tracks).
Proof.
  induction tracks as [| track rest IH]; intros st Hmode.
  - cbn. split; [exact Hmode |]. split; [reflexivity | lia].
  - cbn [fold_left].
    destruct (IH (recordTrackPlayed track st)) as (Hm & Hc & Hn).
    { cbn. exact Hmode. }
    split; [exact Hm |]. split; [exact Hc |].
    rewrite Hn. cbn [recordTrackPlayed radioTracksPlayed length].
    rewrite Hmode. cbn [QueueMode_eqb]. lia.
Qed.

(** X24. In radio mode every recorded track counts as one radio track, and
    with the default radio configuration the seed weight is
    [0.7 - 0.02 * n] after [n <= 20] tracks of a new radio and stays at the
    floor 0.3 from the 20th track on. *)
Theorem seed_weight_over_a_radio_session
    (st : SmartQueueState) (tracks : list UnifiedTrack) :
  mode st = radio ->
  radioConfig st = DEFAULT_RADIO_CONFIG ->
  radioTracksPlayed st = 0 ->
  radioTracksPlayed (fold_left (fun s t => recordTrackPlayed t s) tracks st)
    = Z.of_nat (length tracks) /\
  ((length tracks <= 20)%nat ->
   (effectiveSeedWeight
      (radioConfig (fold_left (fun s t => recordTrackPlayed t s) tracks st))
      (radioTracksPlayed (fold_left (fun s t => recordTrackPlayed t s) tracks st))
    == 0.7 - 0.02 * inject_Z (Z.of_nat (length tracks)))%Q) /\
  ((20 <= length tracks)%nat ->
   (effectiveSeedWeight
      (radioConfig (fold_left (fun s t => recordTrackPlayed t s) tracks st))
      (radioTracksPlayed (fold_left (fun s t => recordTrackPlayed t s) tracks st))
    == 0.3)%Q).
Proof.
  intros Hmode Hconfig Hzero.
  destruct (recordTrackPlayed_radio_count tracks st Hmode) as (_ & Hc & Hn).
  rewrite Hc, Hn, Hconfig, Hzero, Z.add_0_l.
  split; [reflexivity |].
  unfold effectiveSeedWeight. cbn [DEFAULT_RADIO_CONFIG progressiveDrift seedWeight].
  set (n := length tracks).
  split; intros Hlen.
  - assert (Hle : (inject_Z (Z.of_nat n) <= 20)%Q)
      by (change 20%Q with (inject_Z 20); rewrite <- Zle_Qle; lia).
    revert Hle. generalize (inject_Z (Z.of_nat n)). intros q Hle.
    rewrite Q.max_r; [ring | lra].
  - assert (Hle : (20 <= inject_Z (Z.of_nat n))%Q)
      by (change 20%Q with (inject_Z 20); rewrite <- Zle_Qle; lia).
    revert Hle. generalize (inject_Z (Z.of_nat n)). intros q Hle.
    rewrite Q.max_l; [reflexivity | lra].
Qed.

(** X24 after 25 plays of a track in a new radio: the weight is at 0.3. *)
Lemma seed_weight_after_25_tracks :
  radioTracksPlayed
    (fold_left (fun s t => recordTrackPlayed t s)
       (replicate 25 (trackBy 1 "t1" "Abba")) (radioState (seedWithBpm 120) 0))
  = 25 /\
  (effectiveSeedWeight
     (radioConfig
        (fold_left (fun s t => recordTrackPlayed t s)
           (replicate 25 (trackBy 1 "t1" "Abba"))
           (radioState (seedWithBpm 120) 0)))
     (radioTracksPlayed
        (fold_left (fun s t => recordTrackPlayed t s)
           (replicate 25 (trackBy 1 "t1" "Abba"))
           (radioState (seedWithBpm 120) 0)))
   == 0.3)%Q.
Proof.
  destruct (seed_weight_over_a_radio_session (radioState (seedWithBpm 120) 0)
              (replicate 25 (trackBy 1 "t1" "Abba")) eq_refl eq_refl eq_refl)
    as (Hcount & _ & Hfloor).
  split; [exact Hcount |].
  apply Hfloor. rewrite length_replicate. lia.
Defined.

(** ** Queue source tracking *)

(** X26. A source set for a track id is the one read back for it, and
    setting it changes no other id's source and nothing else in the store.
    After [clearQueueSources] the store holds no source: [getQueueSource]
    gives [undefined] for every id, except for the names of the members that
    the empty object inherits, for which it gives that member. *)
Theorem queueSource_round_trip
    (trackId : string) (source : QueueSource) (st : SmartQueueState) :
  getQueueSource trackId (setQueueSource trackId source st) = Obj.Own source /\
  (forall other,
     other <> trackId ->
     getQueueSource other (setQueueSource trackId source st)
     = getQueueSource other st) /\
  queueSources (clearQueueSources st) = ∅ /\
  (forall other,
     getQueueSource other (clearQueueSources st)
     = if Obj.inherited other then Obj.Member else Obj.Undefined) /\
  getQueueSource "constructor" (clearQueueSources st) = Obj.Member /\
  (mode (setQueueSource trackId source st),
   radioSeed (setQueueSource trackId source st),
   sessionHistory (setQueueSource trackId source st),
   config (setQueueSource trackId source st))
  = (mode st, radioSeed st, sessionHistory st, config st).
Proof.
  unfold getQueueSource, Obj.read. cbn [setQueueSource clearQueueSources queueSources].
  split; [by rewrite lookup_insert_eq |].
  split; [intros other Hne; by rewrite lookup_insert_ne |].
  split; [reflexivity |].
  split; [intros other; by rewrite lookup_empty |].
  split; reflexivity.
Qed.

(** ** Session age *)

(** X27. After [resetSession] the session is never more than 4 hours old;
    a second [resetSession] at the same time changes nothing more; right
    after a [clearSession], [resetSession] leaves the store alone for the
    next 4 hours; and neither action touches the mode, the radio seed, the
    configuration or the queue sources. *)
Theorem resetSession_bounds_session_age (st : SmartQueueState) (now : Z) :
  now - sessionStartTime (sessionHistory (resetSession now st)) <= 14400000 /\
  resetSession now (resetSession now st) = resetSession now st /\
  (forall later,
     later - now <= 14400000 ->
     resetSession later (clearSession now st) = clearSession now st) /\
  (mode (resetSession now st), radioSeed (resetSession now st),
   config (resetSession now st), radioConfig (resetSession now st),
   queueSources (resetSession now st))
  = (mode st, radioSeed st, config st, radioConfig st, queueSources st).
Proof.
  unfold resetSession, SESSION_TIMEOUT_MS. cbn zeta.
  destruct (now - sessionStartTime (sessionHistory st) >? 4 * 60 * 60 * 1000)
    eqn:Hold.
  - cbn [clearSession sessionHistory sessionStartTime mode radioSeed config
         radioConfig queueSources].
    rewrite Z.sub_diag. cbn [Z.gtb Z.compare].
    split; [lia |]. split; [reflexivity |]. split; [| reflexivity].
    intros later Hsoon.
    destruct (later - now >? 4 * 60 * 60 * 1000) eqn:E; [lia | reflexivity].
  - rewrite Hold.
    split; [lia |]. split; [reflexivity |]. split; [| reflexivity].
    intros later Hsoon.
    cbn [clearSession sessionHistory sessionStartTime].
    destruct (later - now >? 4 * 60 * 60 * 1000) eqn:E; [lia | reflexivity].
Qed.

(** X1 for the enharmonic keys F# and Gb, both at position 6. *)
Lemma calculateKeyCompatibility_enharmonic :
  exists compat,
    Proto.calculateKeyCompatibility (Some "F#") (Some "Gb") = Some compat /\
    (compat == 1)%Q.
Proof.
  destruct (proj1 (proj2 (proj2 (proj2 calculateKeyCompatibility_symmetric)))
              "F#" "Gb" 6 6 eq_refl eq_refl)
    as (compat & Hcompat & _ & Hsame).
  exists compat. split; [exact Hcompat | exact (Hsame eq_refl)].
Defined.
